(** * anki-pdf-generator: the vocabulary pipeline of [app.py]

    A shallow embedding of the processing branch of [app.py]: text
    cleaning ([limpiar_texto]), the token loop that folds tokens into the
    [vocab] dict, the row-building loop with its JLPT filter, and the final
    [df.sort_values].

    Python values are modelled as follows.
    - a [str] is the list of its Unicode code points ([pystr]); literals of
      the source are written [py "..."] when they are ASCII and as explicit
      code points otherwise;
    - an [int] is a [Z];
    - the three lookup dicts built from the CSV files are [gmap]s keyed by
      [pystr]; their value columns have the types announced by the upload
      widgets (level: text, frequency: number, meaning: text);
    - [vocab] is a dict that is iterated after it was filled, so its
      insertion order is observable: it is an association list in insertion
      order;
    - a call that may raise returns a [result]: a value or a raised
      exception of type [exn]. *)

From Stdlib Require Import ZArith NArith String Ascii.
From stdpp Require Import gmap list sorting.

Local Open Scope Z_scope.

(** ** Python strings *)

Abbreviation pystr := (list N).

(** An ASCII literal of the source as a Python string. *)
Definition py (s : string) : pystr := N_of_ascii <$> list_ascii_of_string s.

(** [s.startswith(old)]. *)
Fixpoint startswith (old s : pystr) : bool :=
  match old, s with
  | [], _ => true
  | _ :: _, [] => false
  | a :: old', b :: s' => if decide (a = b) then startswith old' s' else false
  end.

(** [s.replace(old, new)]: the occurrences of [old] are found from left to
    right and do not overlap. [skip] counts the characters of a match that
    are still to be passed over. With an empty [old] Python puts [new]
    before every character and at the end. *)
Fixpoint replace_from (old new : pystr) (skip : nat) (s : pystr) : pystr :=
  match s with
  | [] => match old with [] => new | _ :: _ => [] end
  | c :: s' =>
      match skip with
      | S k => replace_from old new k s'
      | O =>
          if startswith old s
          then match old with
               | [] => new ++ c :: replace_from old new 0 s'
               | _ :: old' => new ++ replace_from old new (length old') s'
               end
          else c :: replace_from old new 0 s'
      end
  end.

Definition replace (s old new : pystr) : pystr := replace_from old new 0 s.

(** The three characters removed by [limpiar_texto]. *)
Definition LF : N := 10%N.                 (* "\n" *)
Definition SPACE : N := 32%N.              (* " " *)
Definition IDEOGRAPHIC_SPACE : N := 12288%N. (* U+3000 *)

(** [limpiar_texto(texto)]: three chained [replace] calls that delete, in
    this order, the line feed, the ASCII space and the full-width space. *)
Definition limpiar_texto (texto : pystr) : pystr :=
  replace (replace (replace texto [LF] []) [SPACE] []) [IDEOGRAPHIC_SPACE] [].

(** ** Exceptions and results *)

Inductive exn :=
| KeyError (key : pystr)      (* a subscript on a dict or a missing column *)
| IndexError                  (* a subscript on a sequence *)
| OtherError (msg : pystr).   (* anything else a library call may raise *)

Inductive result (A : Type) :=
| Ok (a : A)
| Raise (e : exn).
Arguments Ok {A} a.
Arguments Raise {A} e.

Global Instance result_ret : MRet result := λ A a, Ok a.
Global Instance result_bind : MBind result := λ A B f r,
  match r with Ok a => f a | Raise e => Raise e end.

(** ** Dicts *)

(** [d.get(k, default)]. *)
Definition dict_get {V} (d : gmap pystr V) (k : pystr) (dflt : V) : V :=
  default dflt (d !! k).

(** [d[k]]. *)
Definition dict_getitem {V} (d : gmap pystr V) (k : pystr) : result V :=
  match d !! k with Some v => Ok v | None => Raise (KeyError k) end.

(** [k in d]. *)
Definition dict_contains {V} (d : gmap pystr V) (k : pystr) : bool :=
  bool_decide (is_Some (d !! k)).

(** Truth value of a [str]: the empty string is false. *)
Definition str_truthy (s : pystr) : bool :=
  match s with [] => false | _ :: _ => true end.

(** ** Part-of-speech tags *)

Definition MEISHI : pystr := [21517; 35422]%N.         (* 名詞, noun *)
Definition DOUSHI : pystr := [21205; 35422]%N.         (* 動詞, verb *)
Definition KEIYOUSHI : pystr := [24418; 23481; 35422]%N. (* 形容詞, adjective *)
Definition FUKUSHI : pystr := [21103; 35422]%N.        (* 副詞, adverb *)
Definition JOSHI : pystr := [21161; 35422]%N.          (* 助詞, particle *)
Definition JODOUSHI : pystr := [21161; 21205; 35422]%N. (* 助動詞, auxiliary verb *)

Definition POS_MAP : gmap pystr pystr :=
  list_to_map [ (MEISHI, py "Noun"); (DOUSHI, py "Verb");
                (KEIYOUSHI, py "Adjective"); (FUKUSHI, py "Adverb") ].

(** ** Tokens and the vocabulary dict *)

(** A morpheme of the tokenizer, seen through the two methods the loop
    calls; either call may raise. [part_of_speech] returns a tuple of
    tags. *)
Record Token := {
  part_of_speech : result (list pystr);
  dictionary_form : result pystr
}.

(** The inner dict stored for a word: keys [count] and [pos]. *)
Record Info := { count : Z; pos : pystr }.

(** [vocab]: word to [Info], in insertion order. *)
Abbreviation Vocab := (list (pystr * Info)).

(** [vocab.get(k)]. *)
Fixpoint vocab_lookup (k : pystr) (vocab : Vocab) : option Info :=
  match vocab with
  | [] => None
  | (k', v) :: rest => if decide (k = k') then Some v else vocab_lookup k rest
  end.

(** [k in vocab]. *)
Definition vocab_contains (k : pystr) (vocab : Vocab) : bool :=
  bool_decide (is_Some (vocab_lookup k vocab)).

(** [vocab[k] = v]: a present key keeps its place, a new key goes last. *)
Fixpoint vocab_setitem (k : pystr) (v : Info) (vocab : Vocab) : Vocab :=
  match vocab with
  | [] => [(k, v)]
  | (k', v') :: rest =>
      if decide (k = k') then (k, v) :: rest
      else (k', v') :: vocab_setitem k v rest
  end.

(** [vocab[k]["count"] += 1]. *)
Definition vocab_incr (k : pystr) (vocab : Vocab) : Vocab * result unit :=
  match vocab_lookup k vocab with
  | Some info =>
      (vocab_setitem k {| count := count info + 1; pos := pos info |} vocab,
       Ok ())
  | None => (vocab, Raise (KeyError k))
  end.

(** The body of the [try] in the token loop. It returns the dict as it is
    when the body ends, normally or by an exception: nothing is rolled
    back. A [continue] ends the body normally. *)
Definition token_try (t : Token) (vocab : Vocab) : Vocab * result unit :=
  match part_of_speech t with
  | Raise e => (vocab, Raise e)
  | Ok tags =>
      match tags !! 0%nat with
      | None => (vocab, Raise IndexError)
      | Some pos_jp =>
          if bool_decide (pos_jp ∈ [JOSHI; JODOUSHI]) then (vocab, Ok ())
          else
            match dictionary_form t with
            | Raise e => (vocab, Raise e)
            | Ok base =>
                let pos := dict_get POS_MAP pos_jp (py "Other") in
                let vocab1 :=
                  if negb (vocab_contains base vocab)
                  then vocab_setitem base {| count := 0; pos := pos |} vocab
                  else vocab in
                vocab_incr base vocab1
            end
      end
  end.

(** One iteration of [for t in tokens]: the bare [except] swallows every
    exception and goes on with the next token. *)
Definition token_iter (vocab : Vocab) (t : Token) : Vocab :=
  fst (token_try t vocab).

(** [for t in tokens: ...]. *)
Definition token_loop (tokens : list Token) (vocab : Vocab) : Vocab :=
  foldl token_iter vocab tokens.

(** ** Rows *)

(** A cell of the table: text or a number. *)
Inductive cell :=
| CStr (s : pystr)
| CInt (n : Z).

(** The dict appended to [rows], with its keys in the order of the
    literal. *)
Record Row := {
  Front : pystr;
  Reading : pystr;
  Furigana : pystr;
  POS : pystr;
  Meaning_EN : pystr;
  JLPT : pystr;
  Frequency_PDF : Z;
  Frequency_Global : cell
}.

Definition row_items (r : Row) : list (string * cell) :=
  [ ("Front"%string, CStr (Front r));
    ("Reading"%string, CStr (Reading r));
    ("Furigana"%string, CStr (Furigana r));
    ("POS"%string, CStr (POS r));
    ("Meaning_EN"%string, CStr (Meaning_EN r));
    ("JLPT"%string, CStr (JLPT r));
    ("Frequency_PDF"%string, CInt (Frequency_PDF r));
    ("Frequency_Global"%string, Frequency_Global r) ].

Definition jlpt_rank : gmap pystr Z :=
  list_to_map [ (py "N5", 1); (py "N4", 2); (py "N3", 3);
                (py "N2", 4); (py "N1", 5) ].

(** [.join] of the [hira] segments around the empty string. *)
Definition join_hira (segments : list pystr) : pystr := concat segments.

(** The f-string of the furigana markup. *)
Definition furigana_of (word reading_text : pystr) : pystr :=
  py "<ruby>" ++ word ++ py "<rt>" ++ reading_text ++ py "</rt></ruby>".

(** ** Ordering and stable sorting *)

(** [a <= b] on [str]: code point by code point, a proper prefix first. *)
Fixpoint str_le (a b : pystr) : bool :=
  match a, b with
  | [], _ => true
  | _ :: _, [] => false
  | x :: a', y :: b' =>
      if (x <? y)%N then true
      else if (x =? y)%N then str_le a' b'
      else false
  end.

Section StableSort.

Context {A : Type} (R : relation A) `{!RelDecision R}.

(** [x] goes in front of the first element it is not greater than, so it
    stays in front of the equal elements that followed it. *)
Fixpoint insert_stable (x : A) (l : list A) : list A :=
  match l with
  | [] => [x]
  | y :: l' => if decide (R x y) then x :: l else y :: insert_stable x l'
  end.

Definition stable_sort (l : list A) : list A := foldr insert_stable [] l.

End StableSort.

(** Ascending order of the [JLPT] column. *)
Definition jlpt_asc (r1 r2 : Row) : Prop := str_le (JLPT r1) (JLPT r2) = true.

(** Descending order of the [Frequency_PDF] column. *)
Definition freq_desc (r1 r2 : Row) : Prop := Frequency_PDF r2 ≤ Frequency_PDF r1.

Global Instance jlpt_asc_dec : RelDecision jlpt_asc.
Proof. intros r1 r2. unfold jlpt_asc. apply _. Defined.

Global Instance freq_desc_dec : RelDecision freq_desc.
Proof. intros r1 r2. unfold freq_desc. apply _. Defined.

(** The index sort behind a sort on several columns: one stable pass per
    column, the least significant column first. The passes are written as
    insertion sorts; [lexsort_unique] below shows that the sorted order and
    the stability leave no other result. *)
Definition lexsort (rows : list Row) : list Row :=
  stable_sort jlpt_asc (stable_sort freq_desc rows).

Record DataFrame := { columns : list string; records : list Row }.

(** [pd.DataFrame(rows)]: the columns are the keys of the dicts; a frame
    made from no dict has no column. *)
Definition pd_DataFrame (rows : list Row) : DataFrame :=
  {| columns := match rows with [] => [] | r :: _ => (row_items r).*1 end;
     records := rows |}.

(** [df.sort_values(by=[JLPT, Frequency_PDF], ascending=[True, False])]:
    a name in [by] that is not a column raises [KeyError]. *)
Definition sort_values (df : DataFrame) : result DataFrame :=
  if bool_decide ("JLPT"%string ∈ columns df) then
    if bool_decide ("Frequency_PDF"%string ∈ columns df) then
      Ok {| columns := columns df; records := lexsort (records df) |}
    else Raise (KeyError (py "Frequency_PDF"))
  else Raise (KeyError (py "JLPT")).

(** The Ranker on a list of rows: the frame is built, sorted, and its rows
    read back. *)
Definition ranker (rows : list Row) : result (list Row) :=
  df ← sort_values (pd_DataFrame rows);
  mret (records df).

Section Pipeline.

(** The two services created at start-up: [tokenizer_obj.tokenize] at the
    fixed split mode and [conv.convert]. A converted segment is seen through
    its [hira] key. *)
Variable tokenize : pystr → list Token.
Variable convert : pystr → list pystr.

(** One iteration of [for p in range(total_pages)]; [extract_text] gives a
    string, possibly empty, or nothing, and both are false. *)
Definition page_iter (vocab : Vocab) (raw_text : option pystr) : Vocab :=
  match raw_text with
  | None => vocab
  | Some txt =>
      if negb (str_truthy txt) then vocab
      else
        let clean := limpiar_texto txt in
        if negb (str_truthy clean) then vocab
        else token_loop (tokenize clean) vocab
  end.

Definition page_loop (pages : list (option pystr)) : Vocab :=
  foldl page_iter [] pages.

Variable jlpt_dict : gmap pystr pystr.
Variable freq_dict : gmap pystr Z.
Variable en_dict : gmap pystr pystr.
Variable min_jlpt : pystr.

(** The condition of the level filter; [and] evaluates its right operand
    only when the left one is true. *)
Definition level_filter (jlpt : pystr) : result bool :=
  if str_truthy jlpt then
    if dict_contains jlpt_rank jlpt then
      a ← dict_getitem jlpt_rank jlpt;
      b ← dict_getitem jlpt_rank min_jlpt;
      mret (bool_decide (a > b))
    else mret false
  else mret false.

(** The body of [for word, info in vocab.items()]: nothing when the body
    ends at [continue], the appended row otherwise. The three lookups are
    [get] calls with the empty string as default; the frequency found is a
    number. *)
Definition row_iter (word : pystr) (info : Info) : result (option Row) :=
  let jlpt := dict_get jlpt_dict word [] in
  skip ← level_filter jlpt;
  if (skip : bool) then mret None
  else
    let reading_text := join_hira (convert word) in
    let furigana := furigana_of word reading_text in
    mret (Some {| Front := word;
                  Reading := reading_text;
                  Furigana := furigana;
                  POS := pos info;
                  Meaning_EN := dict_get en_dict word [];
                  JLPT := jlpt;
                  Frequency_PDF := count info;
                  Frequency_Global :=
                    match freq_dict !! word with
                    | Some f => CInt f
                    | None => CStr []
                    end |}).

Fixpoint row_loop (items : Vocab) (rows : list Row) : result (list Row) :=
  match items with
  | [] => mret rows
  | (word, info) :: rest =>
      r ← row_iter word info;
      match r with
      | None => row_loop rest rows
      | Some row => row_loop rest (rows ++ [row])
      end
  end.

(** The processing branch from the page loop to the sorted frame. *)
Definition procesar (pages : list (option pystr)) : result DataFrame :=
  let vocab := page_loop pages in
  rows ← row_loop vocab [];
  sort_values (pd_DataFrame rows).

End Pipeline.

(** ** Notions used to state the properties *)

(** A token survives when its first tag could be read, is neither of the
    two filtered tags, and its dictionary form could be read; the result is
    the pair of its lemma and its native tag. *)
Definition survives (t : Token) : option (pystr * pystr) :=
  match part_of_speech t, dictionary_form t with
  | Ok (pos_jp :: _), Ok base =>
      if decide (pos_jp = JOSHI ∨ pos_jp = JODOUSHI) then None
      else Some (base, pos_jp)
  | _, _ => None
  end.

(** The extraction of the tag or of the dictionary form fails. *)
Definition extraction_fails (t : Token) : Prop :=
  (∃ e, part_of_speech t = Raise e) ∨ part_of_speech t = Ok [] ∨
  (∃ e, dictionary_form t = Raise e).

(** The display tag of a native tag. *)
Definition display_tag (pos_jp : pystr) : pystr :=
  dict_get POS_MAP pos_jp (py "Other").

(** The fold step in the words of the specification: a new lemma gets an
    entry with frequency 1 and the tag of this token; a known lemma gets its
    frequency raised by 1 and keeps its tag. *)
Definition aggregate_step (vocab : Vocab) (base tag : pystr) : Vocab :=
  match vocab_lookup base vocab with
  | None => vocab ++ [(base, {| count := 1; pos := tag |})]
  | Some info =>
      vocab_setitem base {| count := count info + 1; pos := pos info |} vocab
  end.

(** The sum of the frequencies of all entries. *)
Definition total_count (vocab : Vocab) : Z :=
  foldr (λ entry acc, count entry.2 + acc) 0 vocab.

(** The display tag of the first surviving token with lemma [base]. *)
Definition first_tag (base : pystr) (tokens : list Token) : option pystr :=
  (λ p, display_tag p.2) <$> head (filter (λ p, p.1 = base) (omap survives tokens)).

(** The tokens of a document, page after page. *)
Definition document_tokens (tokenize : pystr → list Token)
    (pages : list (option pystr)) : list Token :=
  pages ≫= λ raw_text,
    match raw_text with
    | None => []
    | Some txt => match limpiar_texto txt with
                  | [] => []
                  | clean => tokenize clean
                  end
    end.

(** The five level strings. *)
Definition LEVELS : list pystr :=
  [py "N5"; py "N4"; py "N3"; py "N2"; py "N1"].

(** The column names of the output table, in order. *)
Definition COLUMNS : list string :=
  [ "Front"; "Reading"; "Furigana"; "POS"; "Meaning_EN"; "JLPT";
    "Frequency_PDF"; "Frequency_Global" ]%string.

(** The level found for [word] is a known level whose rank is strictly
    greater than the rank of the configured minimum level. *)
Definition too_advanced (jlpt_dict : gmap pystr pystr) (min_jlpt word : pystr)
    : bool :=
  match jlpt_dict !! word with
  | None => false
  | Some level =>
      match jlpt_rank !! level, jlpt_rank !! min_jlpt with
      | Some r, Some m => bool_decide (r > m)
      | _, _ => false
      end
  end.

(** What the specification says of the row of an entry. *)
Record row_matches (convert : pystr → list pystr)
    (jlpt_dict : gmap pystr pystr) (freq_dict : gmap pystr Z)
    (en_dict : gmap pystr pystr) (entry : pystr * Info) (r : Row) : Prop := {
  matches_Front : Front r = entry.1;
  matches_Reading : Reading r = concat (convert entry.1);
  matches_Furigana :
    Furigana r =
    py "<ruby>" ++ entry.1 ++ py "<rt>" ++ Reading r ++ py "</rt></ruby>";
  matches_POS : POS r = pos entry.2;
  matches_Meaning_EN : Meaning_EN r = default [] (en_dict !! entry.1);
  matches_JLPT : JLPT r = default [] (jlpt_dict !! entry.1);
  matches_Frequency_PDF : Frequency_PDF r = count entry.2;
  matches_Frequency_Global :
    Frequency_Global r = from_option CInt (CStr []) (freq_dict !! entry.1)
}.

(** The order of the two sort keys together: the level first, the
    frequency among rows of one level. *)
Definition rank_le (r1 r2 : Row) : Prop :=
  jlpt_asc r1 r2 ∧ (JLPT r1 = JLPT r2 → freq_desc r1 r2).

Global Instance rank_le_dec : RelDecision rank_le.
Proof. intros r1 r2. unfold rank_le. apply _. Defined.

(** The rows with the given values of the two sort keys. *)
Definition same_keys (jlpt : pystr) (freq : Z) (r : Row) : Prop :=
  JLPT r = jlpt ∧ Frequency_PDF r = freq.

Global Instance same_keys_dec jlpt freq r : Decision (same_keys jlpt freq r).
Proof. unfold same_keys. apply _. Defined.

(** Every row with an empty level comes after every row with a known
    level. *)
Definition empty_level_last (out : list Row) : Prop :=
  ∀ (i j : nat) ri rj,
    out !! i = Some ri → out !! j = Some rj →
    JLPT ri = [] → JLPT rj ∈ LEVELS → (j < i)%nat.

(** Every row with an empty level comes before every row with a level that
    is not empty. *)
Definition empty_level_first (out : list Row) : Prop :=
  ∀ (i j : nat) ri rj,
    out !! i = Some ri → out !! j = Some rj →
    JLPT ri = [] → JLPT rj ≠ [] → (i < j)%nat.

(** ** The lookup dicts and further notions *)

(** [dict(zip(keys, values))] on the first two columns of a CSV file: the
    pairs are inserted from left to right, [zip] stops at the shorter
    column. *)
Definition dict_zip {V} (keys : list pystr) (values : list V) : gmap pystr V :=
  foldl (λ d kv, <[kv.1 := kv.2]> d) ∅ (zip keys values).

(** One of the three characters that the cleaning removes. *)
Definition blank_char (c : N) : Prop :=
  c = LF ∨ c = SPACE ∨ c = IDEOGRAPHIC_SPACE.

(** A page without text, or whose text holds only such characters. *)
Definition blank_page (raw_text : option pystr) : Prop :=
  match raw_text with
  | None => True
  | Some txt => Forall blank_char txt
  end.

(** The number of surviving tokens with lemma [base]. *)
Definition occurrences (base : pystr) (tokens : list Token) : nat :=
  length (filter (λ p, p.1 = base) (omap survives tokens)).

(** The five display tags. *)
Definition DISPLAY_TAGS : list pystr :=
  [py "Noun"; py "Verb"; py "Adjective"; py "Adverb"; py "Other"].

(** The level dict holds one of the five levels for [word]. *)
Definition has_known_level (jlpt_dict : gmap pystr pystr) (word : pystr)
    : bool :=
  match jlpt_dict !! word with
  | Some level => dict_contains jlpt_rank level
  | None => false
  end.

(** The sum of the frequencies of the rows of a table. *)
Definition total_frequency (rows : list Row) : Z :=
  foldr (λ r acc, Frequency_PDF r + acc) 0 rows.

(** * Properties *)

(** ** Text cleaning *)

Example py_lit : py "N5" = [78%N; 53%N].
Proof. reflexivity. Qed.

Example replace_overlap : replace (py "aXXXb") (py "XX") (py "-") = py "a-Xb".
Proof. reflexivity. Qed.

Example replace_empty_pattern : replace (py "ab") [] (py "-") = py "-a-b-".
Proof. reflexivity. Qed.

Example limpiar_texto_sample :
  limpiar_texto [97; 32; 10; 12288; 98; 13]%N = [97; 98; 13]%N.
Proof. reflexivity. Qed.

(** Deleting a one-character pattern keeps exactly the other characters. *)
Lemma replace_char_delete (c : N) (s : pystr) :
  replace s [c] [] = filter (λ x, x ≠ c) s.
Proof.
  unfold replace. induction s as [|a s IH]; [done|].
  cbn [replace_from startswith length app].
  destruct (decide (c = a)) as [->|Hne].
  - rewrite filter_cons_False by (intros H; by apply H). exact IH.
  - rewrite filter_cons_True by congruence. by rewrite IH.
Qed.

Lemma limpiar_texto_filter (s : pystr) :
  limpiar_texto s =
  filter (λ c, c ≠ LF ∧ c ≠ SPACE ∧ c ≠ IDEOGRAPHIC_SPACE) s.
Proof.
  unfold limpiar_texto. rewrite !replace_char_delete, !list_filter_filter.
  apply list_filter_iff. intros c. tauto.
Qed.

(** C3: the cleaned text holds no line feed, no ASCII space and no
    full-width space, and is the input with exactly those characters taken
    out: every other character stays, unchanged and in order. *)
Theorem limpiar_texto_spec (s : pystr) :
  (LF ∉ limpiar_texto s) ∧ (SPACE ∉ limpiar_texto s) ∧
  (IDEOGRAPHIC_SPACE ∉ limpiar_texto s) ∧
  limpiar_texto s =
    filter (λ c, c ≠ LF ∧ c ≠ SPACE ∧ c ≠ IDEOGRAPHIC_SPACE) s.
Proof.
  rewrite limpiar_texto_filter.
  repeat split; try (rewrite list_elem_of_filter; tauto).
Qed.

(** ** The vocabulary dict *)

Lemma vocab_lookup_setitem_eq k v (vocab : Vocab) :
  vocab_lookup k (vocab_setitem k v vocab) = Some v.
Proof.
  induction vocab as [|[k' v'] rest IH]; simpl.
  - by rewrite decide_True.
  - destruct (decide (k = k')) as [->|Hne]; simpl.
    + by rewrite decide_True.
    + by rewrite decide_False.
Qed.

Lemma vocab_lookup_setitem_ne k k' v (vocab : Vocab) :
  k ≠ k' → vocab_lookup k' (vocab_setitem k v vocab) = vocab_lookup k' vocab.
Proof.
  intros Hne. induction vocab as [|[k0 v0] rest IH]; simpl.
  - by rewrite decide_False.
  - destruct (decide (k = k0)) as [->|Hne0]; simpl.
    + by rewrite !decide_False.
    + by rewrite IH.
Qed.

Lemma vocab_setitem_absent k v (vocab : Vocab) :
  vocab_lookup k vocab = None → vocab_setitem k v vocab = vocab ++ [(k, v)].
Proof.
  induction vocab as [|[k' v'] rest IH]; simpl; [done|].
  destruct (decide (k = k')); [done|]. intros H. by rewrite IH.
Qed.

Lemma vocab_setitem_twice k v1 v2 (vocab : Vocab) :
  vocab_setitem k v2 (vocab_setitem k v1 vocab) = vocab_setitem k v2 vocab.
Proof.
  induction vocab as [|[k' v'] rest IH]; simpl.
  - by rewrite decide_True.
  - destruct (decide (k = k')) as [->|Hne]; simpl.
    + by rewrite decide_True.
    + by rewrite decide_False, IH.
Qed.

Lemma total_count_app (v1 v2 : Vocab) :
  total_count (v1 ++ v2) = total_count v1 + total_count v2.
Proof.
  unfold total_count. induction v1 as [|e v1 IH]; simpl; [done|].
  rewrite IH. lia.
Qed.

Lemma total_count_setitem k v info (vocab : Vocab) :
  vocab_lookup k vocab = Some info →
  total_count (vocab_setitem k v vocab) = total_count vocab - count info + count v.
Proof.
  unfold total_count. induction vocab as [|[k' v'] rest IH]; simpl; [done|].
  destruct (decide (k = k')) as [->|Hne]; simpl.
  - intros [= ->]. lia.
  - intros H. rewrite IH by done. lia.
Qed.

Lemma filtered_tag_iff (pos_jp : pystr) :
  pos_jp ∈ [JOSHI; JODOUSHI] ↔ pos_jp = JOSHI ∨ pos_jp = JODOUSHI.
Proof. rewrite !elem_of_cons, elem_of_nil. tauto. Qed.

(** The code of one iteration refines the specification's fold step. *)
Lemma token_iter_step (vocab : Vocab) (t : Token) :
  token_iter vocab t =
  match survives t with
  | None => vocab
  | Some (base, pos_jp) => aggregate_step vocab base (display_tag pos_jp)
  end.
Proof.
  unfold token_iter, token_try, survives.
  destruct (part_of_speech t) as [[|pos_jp tags]|e]; simpl; try done.
  destruct (dictionary_form t) as [base|e]; simpl.
  - case_bool_decide as Hp; rewrite filtered_tag_iff in Hp;
      destruct (decide _) as [Hq|Hq]; try done.
    unfold aggregate_step, vocab_incr, vocab_contains, display_tag.
    destruct (vocab_lookup base vocab) as [info|] eqn:Hl; simpl.
    + by rewrite Hl.
    + rewrite vocab_lookup_setitem_eq. simpl.
      by rewrite vocab_setitem_twice, vocab_setitem_absent.
  - by case_bool_decide.
Qed.

Lemma vocab_lookup_app k (v1 v2 : Vocab) :
  vocab_lookup k (v1 ++ v2) =
  match vocab_lookup k v1 with
  | Some info => Some info
  | None => vocab_lookup k v2
  end.
Proof.
  induction v1 as [|[k' v'] rest IH]; simpl; [done|].
  by destruct (decide (k = k')).
Qed.

Lemma vocab_lookup_None k (vocab : Vocab) :
  vocab_lookup k vocab = None ↔ k ∉ vocab.*1.
Proof.
  induction vocab as [|[k' v'] rest IH]; simpl.
  - split; [intros _; apply not_elem_of_nil|done].
  - rewrite not_elem_of_cons. destruct (decide (k = k')); [|tauto].
    split; [done|]. tauto.
Qed.

Lemma vocab_setitem_keys k v info (vocab : Vocab) :
  vocab_lookup k vocab = Some info → (vocab_setitem k v vocab).*1 = vocab.*1.
Proof.
  induction vocab as [|[k' v'] rest IH]; simpl; [done|].
  destruct (decide (k = k')) as [->|Hne]; simpl; [done|].
  intros H. f_equal. by apply IH.
Qed.

Lemma aggregate_step_lookup (vocab : Vocab) (base tag k : pystr) :
  vocab_lookup k (aggregate_step vocab base tag) =
  if decide (k = base) then
    Some match vocab_lookup base vocab with
         | Some info => {| count := count info + 1; pos := pos info |}
         | None => {| count := 1; pos := tag |}
         end
  else vocab_lookup k vocab.
Proof.
  unfold aggregate_step.
  destruct (vocab_lookup base vocab) as [info|] eqn:Hl.
  - destruct (decide (k = base)) as [->|Hne].
    + apply vocab_lookup_setitem_eq.
    + by apply vocab_lookup_setitem_ne.
  - rewrite vocab_lookup_app. simpl.
    destruct (decide (k = base)) as [->|Hne]; [by rewrite Hl|].
    by destruct (vocab_lookup k vocab).
Qed.

Lemma aggregate_step_total (vocab : Vocab) (base tag : pystr) :
  total_count (aggregate_step vocab base tag) = total_count vocab + 1.
Proof.
  unfold aggregate_step.
  destruct (vocab_lookup base vocab) as [info|] eqn:Hl.
  - rewrite (total_count_setitem _ _ info) by done. simpl. lia.
  - rewrite total_count_app. unfold total_count at 2. simpl. lia.
Qed.

Lemma aggregate_step_NoDup (vocab : Vocab) (base tag : pystr) :
  NoDup vocab.*1 → NoDup (aggregate_step vocab base tag).*1.
Proof.
  unfold aggregate_step. intros Hnd.
  destruct (vocab_lookup base vocab) as [info|] eqn:Hl.
  - by rewrite (vocab_setitem_keys _ _ info).
  - rewrite fmap_app. simpl. apply NoDup_app. split_and!; [done| |].
    + intros k Hk ->%list_elem_of_singleton. by apply vocab_lookup_None in Hl.
    + apply NoDup_singleton.
Qed.

Lemma token_loop_cons t ts (vocab : Vocab) :
  token_loop (t :: ts) vocab = token_loop ts (token_iter vocab t).
Proof. done. Qed.

Lemma token_loop_app ts1 ts2 (vocab : Vocab) :
  token_loop (ts1 ++ ts2) vocab = token_loop ts2 (token_loop ts1 vocab).
Proof. apply foldl_app. Qed.

Lemma token_loop_NoDup ts (vocab : Vocab) :
  NoDup vocab.*1 → NoDup (token_loop ts vocab).*1.
Proof.
  revert vocab. induction ts as [|t ts IH]; intros vocab Hnd; [done|].
  rewrite token_loop_cons. apply IH. rewrite token_iter_step.
  destruct (survives t) as [[base pos_jp]|]; [|done].
  by apply aggregate_step_NoDup.
Qed.

Lemma token_loop_total ts (vocab : Vocab) :
  total_count (token_loop ts vocab) =
  total_count vocab + Z.of_nat (length (omap survives ts)).
Proof.
  revert vocab. induction ts as [|t ts IH]; intros vocab.
  - unfold token_loop. simpl. lia.
  - rewrite token_loop_cons, IH, token_iter_step. simpl.
    destruct (survives t) as [[base pos_jp]|]; simpl; [|done].
    change (list_omap _ _ survives ts) with (omap survives ts).
    rewrite aggregate_step_total. lia.
Qed.

Lemma first_tag_cons base t ts :
  first_tag base (t :: ts) =
  match survives t with
  | Some (b, pos_jp) =>
      if decide (b = base) then Some (display_tag pos_jp) else first_tag base ts
  | None => first_tag base ts
  end.
Proof.
  unfold first_tag. simpl. destruct (survives t) as [[b pos_jp]|]; [|done].
  destruct (decide (b = base)) as [Heq|Hne].
  - by rewrite filter_cons_True.
  - by rewrite filter_cons_False.
Qed.

Lemma token_loop_pos ts (vocab : Vocab) (base : pystr) :
  pos <$> vocab_lookup base (token_loop ts vocab) =
  match pos <$> vocab_lookup base vocab with
  | Some p => Some p
  | None => first_tag base ts
  end.
Proof.
  revert vocab. induction ts as [|t ts IH]; intros vocab.
  - unfold token_loop. simpl. by destruct (vocab_lookup base vocab).
  - rewrite token_loop_cons, IH, token_iter_step, first_tag_cons.
    destruct (survives t) as [[b pos_jp]|]; [|done].
    rewrite aggregate_step_lookup.
    destruct (decide (base = b)) as [->|Hne].
    + rewrite decide_True by done. by destruct (vocab_lookup b vocab).
    + by rewrite decide_False.
Qed.

(** The page loop folds the tokens of the document in page order. *)
Lemma page_loop_tokens tokenize pages :
  page_loop tokenize pages = token_loop (document_tokens tokenize pages) [].
Proof.
  unfold page_loop. generalize (@nil (pystr * Info)) as vocab.
  induction pages as [|raw_text pages IH]; intros vocab; [done|].
  unfold document_tokens. simpl. rewrite token_loop_app, IH. f_equal.
  unfold page_iter. destruct raw_text as [[|c txt]|]; try done.
  simpl. by destruct (limpiar_texto (c :: txt)).
Qed.

Example token_loop_sample :
  token_loop
    [ {| part_of_speech := Ok [DOUSHI]; dictionary_form := Ok (py "a") |};
      {| part_of_speech := Ok [JOSHI]; dictionary_form := Ok (py "b") |};
      {| part_of_speech := Ok []; dictionary_form := Ok (py "c") |};
      {| part_of_speech := Ok [MEISHI]; dictionary_form := Ok (py "a") |};
      {| part_of_speech := Ok [py "x"]; dictionary_form := Ok (py "d") |};
      {| part_of_speech := Ok [MEISHI]; dictionary_form := Raise IndexError |} ]
    [] =
  [ (py "a", {| count := 2; pos := py "Verb" |});
    (py "d", {| count := 1; pos := py "Other" |}) ].
Proof. vm_compute. reflexivity. Qed.

(** C5: the tag recorded for a lemma is the display tag of the first
    surviving token with that lemma, in document order; tokens that come
    later never change it. Each lemma has one entry. *)
Theorem first_seen_wins (tokens later : list Token) (base : pystr) :
  NoDup (token_loop tokens []).*1 ∧
  pos <$> vocab_lookup base (token_loop tokens []) = first_tag base tokens ∧
  pos <$> vocab_lookup base (token_loop (tokens ++ later) []) =
    match first_tag base tokens with
    | Some tag => Some tag
    | None => first_tag base later
    end.
Proof.
  split_and!.
  - apply token_loop_NoDup. constructor.
  - by rewrite token_loop_pos.
  - rewrite token_loop_app, !token_loop_pos. simpl.
    by destruct (first_tag base tokens).
Qed.

(** C6: the frequencies of all entries add up to the number of surviving
    tokens, for a token sequence and for the pages of a document. *)
Theorem total_count_survivors (tokens : list Token)
    (tokenize : pystr → list Token) (pages : list (option pystr)) :
  total_count (token_loop tokens []) =
    Z.of_nat (length (omap survives tokens)) ∧
  total_count (page_loop tokenize pages) =
    Z.of_nat (length (omap survives (document_tokens tokenize pages))).
Proof.
  rewrite page_loop_tokens, !token_loop_total. unfold total_count. simpl.
  split; lia.
Qed.

Lemma display_tag_cases (pos_jp : pystr) :
  display_tag pos_jp =
  if decide (pos_jp = MEISHI) then py "Noun"
  else if decide (pos_jp = DOUSHI) then py "Verb"
  else if decide (pos_jp = KEIYOUSHI) then py "Adjective"
  else if decide (pos_jp = FUKUSHI) then py "Adverb"
  else py "Other".
Proof.
  unfold display_tag, dict_get, POS_MAP. cbn [list_to_map foldr uncurry].
  rewrite !lookup_insert, lookup_empty.
  repeat (case_decide; subst; simpl; try done).
Qed.

(** C7: a token tagged as particle or auxiliary verb leaves the dict as it
    was. Any other tag is translated into Noun, Verb, Adjective or Adverb
    when it is in the map and into Other when it is not, and the token is
    counted under its lemma in either case. *)
Theorem tag_filter_and_translation (t : Token) (vocab : Vocab)
    (pos_jp : pystr) (tags : list pystr) :
  part_of_speech t = Ok (pos_jp :: tags) →
  (pos_jp = JOSHI ∨ pos_jp = JODOUSHI → token_iter vocab t = vocab) ∧
  (display_tag pos_jp ∈
     [py "Noun"; py "Verb"; py "Adjective"; py "Adverb"; py "Other"]) ∧
  (pos_jp ∈ [MEISHI; DOUSHI; KEIYOUSHI; FUKUSHI] ↔
     display_tag pos_jp ∈ [py "Noun"; py "Verb"; py "Adjective"; py "Adverb"]) ∧
  (pos_jp ∉ [MEISHI; DOUSHI; KEIYOUSHI; FUKUSHI] →
     display_tag pos_jp = py "Other") ∧
  (pos_jp ≠ JOSHI → pos_jp ≠ JODOUSHI →
   ∀ base, dictionary_form t = Ok base →
     vocab_lookup base (token_iter vocab t) =
     Some {| count := default 0 (count <$> vocab_lookup base vocab) + 1;
             pos := default (display_tag pos_jp)
                      (pos <$> vocab_lookup base vocab) |}).
Proof.
  intros Hpos. split_and!.
  - intros Hf. rewrite token_iter_step. unfold survives. rewrite Hpos.
    destruct (dictionary_form t); [|done]. by rewrite decide_True.
  - rewrite display_tag_cases. repeat case_decide; set_solver.
  - rewrite display_tag_cases, !elem_of_cons, !elem_of_nil.
    repeat case_decide; subst; split; intros Hin; try tauto;
      try (vm_compute in Hin; intuition discriminate).
  - rewrite display_tag_cases, !elem_of_cons, !elem_of_nil.
    intros Hin. repeat case_decide; tauto.
  - intros H1 H2 base Hbase. rewrite token_iter_step. unfold survives.
    rewrite Hpos, Hbase, decide_False by tauto.
    rewrite aggregate_step_lookup, decide_True by done.
    by destruct (vocab_lookup base vocab).
Qed.

Lemma tag_filter_and_translation_witness :
  let t := {| part_of_speech := Ok [DOUSHI; py "*"];
              dictionary_form := Ok (py "taberu") |} in
  part_of_speech t = Ok [DOUSHI; py "*"] ∧
  vocab_lookup (py "taberu") (token_iter [] t) =
    Some {| count := 1; pos := py "Verb" |}.
Proof.
  intros t. split; [reflexivity|].
  destruct (tag_filter_and_translation t [] DOUSHI [py "*"] eq_refl)
    as (_ & _ & _ & _ & Hcount).
  apply (Hcount ltac:(discriminate) ltac:(discriminate) (py "taberu") eq_refl).
Defined.

(** C8: a token whose tag or dictionary form cannot be read leaves the dict
    as it was, and the loop goes on with the tokens after it: the result is
    the one of the same sequence without that token. The loop itself always
    ends with a dict. *)
Theorem failing_token_skipped (t : Token) (vocab : Vocab)
    (before after : list Token) :
  extraction_fails t →
  token_iter vocab t = vocab ∧
  token_loop (before ++ t :: after) vocab =
    token_loop after (token_loop before vocab) ∧
  token_loop (before ++ t :: after) vocab = token_loop (before ++ after) vocab.
Proof.
  intros Hfail.
  assert (Hskip : ∀ v, token_iter v t = v).
  { intros v. rewrite token_iter_step. unfold survives.
    destruct Hfail as [[e ->]|[->|[e He]]]; try done.
    rewrite He. by destruct (part_of_speech t) as [[|??]|?]. }
  split_and!; [apply Hskip| |];
    rewrite !token_loop_app, token_loop_cons; by rewrite Hskip.
Qed.

Lemma failing_token_skipped_witness :
  let t := {| part_of_speech := Ok [MEISHI];
              dictionary_form := Raise (OtherError (py "no form")) |} in
  let a := {| part_of_speech := Ok [MEISHI]; dictionary_form := Ok (py "a") |} in
  extraction_fails t ∧
  token_loop [a; t; a] [] = token_loop [a; a] [].
Proof.
  intros t a.
  assert (Hfail : extraction_fails t) by (right; right; eexists; reflexivity).
  split; [exact Hfail|].
  apply (failing_token_skipped t [] [a] [a] Hfail).
Defined.

(** ** The enrichment loop *)

Lemma jlpt_rank_cases (s : pystr) :
  jlpt_rank !! s =
  if decide (s = py "N5") then Some 1
  else if decide (s = py "N4") then Some 2
  else if decide (s = py "N3") then Some 3
  else if decide (s = py "N2") then Some 4
  else if decide (s = py "N1") then Some 5
  else None.
Proof.
  unfold jlpt_rank. cbn [list_to_map foldr uncurry].
  rewrite !lookup_insert, lookup_empty.
  repeat (case_decide; subst; simpl; try done).
Qed.

Lemma jlpt_rank_known (s : pystr) : is_Some (jlpt_rank !! s) ↔ s ∈ LEVELS.
Proof.
  rewrite jlpt_rank_cases. unfold LEVELS.
  rewrite !elem_of_cons, elem_of_nil.
  repeat case_decide; split; try tauto; try (intros; by eexists).
  by intros [? ?].
Qed.

Lemma jlpt_rank_empty : jlpt_rank !! ([] : pystr) = None.
Proof. by rewrite jlpt_rank_cases. Qed.

Lemma level_filter_known (min_jlpt jlpt : pystr) (m : Z) :
  jlpt_rank !! min_jlpt = Some m →
  level_filter min_jlpt jlpt =
  Ok match jlpt_rank !! jlpt with
     | Some r => bool_decide (r > m)
     | None => false
     end.
Proof.
  intros Hm. unfold level_filter, dict_contains, dict_getitem.
  destruct jlpt as [|c jlpt]; simpl; [by rewrite jlpt_rank_empty|].
  destruct (jlpt_rank !! (c :: jlpt)) as [r|] eqn:Hr.
  - rewrite bool_decide_true by eauto. simpl. by rewrite Hm.
  - by rewrite bool_decide_false by (by intros [? ?]).
Qed.

Lemma level_filter_unknown (min_jlpt jlpt : pystr) :
  jlpt_rank !! jlpt = None → level_filter min_jlpt jlpt = Ok false.
Proof.
  intros Hr. unfold level_filter, dict_contains.
  destruct (str_truthy jlpt); [|done].
  by rewrite Hr, bool_decide_false by (by intros [? ?]).
Qed.

Section RowLoop.

Context (convert : pystr → list pystr).
Context (jlpt_dict : gmap pystr pystr) (freq_dict : gmap pystr Z).
Context (en_dict : gmap pystr pystr) (min_jlpt : pystr).

Local Abbreviation row_iter' := (row_iter convert jlpt_dict freq_dict en_dict min_jlpt).
Local Abbreviation row_loop' := (row_loop convert jlpt_dict freq_dict en_dict min_jlpt).
Local Abbreviation matches' := (row_matches convert jlpt_dict freq_dict en_dict).

(** When the level filter answers, the body skips or appends a row that
    matches the entry. *)
Lemma row_iter_filter (word : pystr) (info : Info) (skip : bool) :
  level_filter min_jlpt (dict_get jlpt_dict word []) = Ok skip →
  ∃ r, matches' (word, info) r ∧
       row_iter' word info = Ok (if skip then None else Some r).
Proof.
  intros Hf. unfold row_iter. rewrite Hf. simpl.
  eexists. split; [|by destruct skip].
  split; simpl; try done.
Qed.

Lemma level_filter_too_advanced (word : pystr) (m : Z) :
  jlpt_rank !! min_jlpt = Some m →
  level_filter min_jlpt (dict_get jlpt_dict word []) =
  Ok (too_advanced jlpt_dict min_jlpt word).
Proof.
  intros Hm. rewrite (level_filter_known _ _ m) by done.
  unfold too_advanced, dict_get. rewrite Hm.
  destruct (jlpt_dict !! word) as [level|]; simpl.
  - by destruct (jlpt_rank !! level).
  - by rewrite jlpt_rank_empty.
Qed.

(** With a known minimum level the loop appends, in the order of the dict,
    one matching row for each entry that is not too advanced. *)
Lemma row_loop_known (items : Vocab) (rows : list Row) (m : Z) :
  jlpt_rank !! min_jlpt = Some m →
  ∃ out,
    row_loop' items rows = Ok (rows ++ out) ∧
    Forall2 matches'
      (filter (λ e, too_advanced jlpt_dict min_jlpt e.1 = false) items) out.
Proof.
  intros Hm. revert rows.
  induction items as [|[word info] rest IH]; intros rows.
  - exists []. split; [by rewrite app_nil_r|constructor].
  - destruct (row_iter_filter word info _ (level_filter_too_advanced word m Hm))
      as (r & Hr & Hiter).
    cbn [row_loop]. rewrite Hiter.
    destruct (too_advanced jlpt_dict min_jlpt word) eqn:Hadv; simpl.
    + destruct (IH rows) as (out & Hout & Hall). exists out. split; [done|].
      by rewrite filter_cons_False by (simpl; congruence).
    + destruct (IH (rows ++ [r])) as (out & Hout & Hall).
      exists (r :: out). split; [by rewrite Hout, <- app_assoc|].
      rewrite filter_cons_True by done. by constructor.
Qed.

Local Abbreviation kept := (λ e : pystr * Info, too_advanced jlpt_dict min_jlpt e.1 = false).

Lemma matches_fronts (items : Vocab) (out : list Row) :
  Forall2 matches' items out → Front <$> out = items.*1.
Proof.
  induction 1 as [|e r items out Hm _ IH]; [done|].
  rewrite !fmap_cons, IH. f_equal. apply Hm.
Qed.

Lemma matches_elem (items : Vocab) (out : list Row) (r : Row) :
  Forall2 matches' items out → r ∈ out → ∃ e, e ∈ items ∧ matches' e r.
Proof.
  induction 1 as [|e r' items out Hm _ IH]; [by intros ?%elem_of_nil|].
  intros [->|Hin]%elem_of_cons.
  - exists e. split; [left|done].
  - destruct (IH Hin) as (e' & He' & Hm'). exists e'. split; [by right|done].
Qed.

Lemma too_advanced_true (word : pystr) :
  too_advanced jlpt_dict min_jlpt word = true ↔
  ∃ level r m,
    jlpt_dict !! word = Some level ∧ jlpt_rank !! level = Some r ∧
    jlpt_rank !! min_jlpt = Some m ∧ r > m.
Proof.
  unfold too_advanced. split.
  - destruct (jlpt_dict !! word) as [level|]; [|done].
    destruct (jlpt_rank !! level) as [r|] eqn:Hr; [|done].
    destruct (jlpt_rank !! min_jlpt) as [m|] eqn:Hm; [|done].
    intros Hgt%bool_decide_eq_true. by exists level, r, m.
  - intros (level & r & m & -> & -> & -> & Hgt). by apply bool_decide_eq_true.
Qed.

(** C4: with one of the five levels as minimum the loop ends with rows, one
    for each entry that is kept, in the order of the entries. An entry is
    dropped exactly when the level found for its word is a known level of a
    rank strictly greater than the rank of the minimum level. An entry whose
    word the level dict does not hold is kept, with the empty string as its
    level; a word missing in the meaning dict or in the frequency dict gives
    the empty string in that field. *)
Theorem enrichment_filter (vocab : Vocab) :
  min_jlpt ∈ LEVELS →
  ∃ rows,
    row_loop' vocab [] = Ok rows ∧
    Front <$> rows = (filter kept vocab).*1 ∧
    (∀ word info, (word, info) ∈ vocab →
       (¬ (∃ r, r ∈ rows ∧ Front r = word) ↔
        ∃ level r m,
          jlpt_dict !! word = Some level ∧ jlpt_rank !! level = Some r ∧
          jlpt_rank !! min_jlpt = Some m ∧ r > m)) ∧
    (∀ word info, (word, info) ∈ vocab → jlpt_dict !! word = None →
       ∃ r, r ∈ rows ∧ Front r = word ∧ JLPT r = []) ∧
    (∀ r, r ∈ rows →
       (en_dict !! Front r = None → Meaning_EN r = []) ∧
       (freq_dict !! Front r = None → Frequency_Global r = CStr [])).
Proof.
  intros [m Hm]%jlpt_rank_known.
  destruct (row_loop_known vocab [] m Hm) as (rows & Hloop & Hall).
  exists rows. simpl in Hloop.
  pose proof (matches_fronts _ _ Hall) as Hfronts.
  assert (Hkept : ∀ word, (∃ r, r ∈ rows ∧ Front r = word) ↔
                          word ∈ (filter kept vocab).*1).
  { intros word. rewrite <- Hfronts, list_elem_of_fmap. split.
    - intros (r & Hr & <-). by exists r.
    - intros (r & -> & Hr). by exists r. }
  split_and!; [done|done| | |].
  - intros word info Hin. rewrite <- too_advanced_true, Hkept.
    rewrite list_elem_of_fmap. split.
    + intros Hnot. apply not_false_iff_true. intros Hk. apply Hnot.
      exists (word, info). split; [done|]. by apply list_elem_of_filter.
    + intros Hadv ([w i] & -> & [Hk _]%list_elem_of_filter). simpl in *.
      congruence.
  - intros word info Hin Hnone.
    assert (kept (word, info)) as Hk.
    { unfold too_advanced. simpl. by rewrite Hnone. }
    assert ((word, info) ∈ filter kept vocab) as Hf
      by by apply list_elem_of_filter.
    apply list_elem_of_lookup in Hf as [i Hi].
    destruct (Forall2_lookup_l _ _ _ _ _ Hall Hi) as (r & Hr & Hmatch).
    exists r. split_and!.
    + by eapply list_elem_of_lookup_2.
    + apply (matches_Front _ _ _ _ _ _ Hmatch).
    + rewrite (matches_JLPT _ _ _ _ _ _ Hmatch). simpl. by rewrite Hnone.
  - intros r Hr. destruct (matches_elem _ _ _ Hall Hr) as (e & _ & Hmatch).
    rewrite (matches_Meaning_EN _ _ _ _ _ _ Hmatch).
    rewrite (matches_Frequency_Global _ _ _ _ _ _ Hmatch).
    rewrite (matches_Front _ _ _ _ _ _ Hmatch).
    split; by intros ->.
Qed.

(** One loop body on a word whose level is none of the five level strings:
    whatever the minimum level is, the body ends without error and appends a
    row that carries that value as its level. *)
Lemma row_iter_malformed (word : pystr) (info : Info) (level : pystr)
    (rest : Vocab) (rows : list Row) :
  jlpt_dict !! word = Some level → level ∉ LEVELS →
  ∃ r,
    row_iter' word info = Ok (Some r) ∧ Front r = word ∧ JLPT r = level ∧
    row_loop' ((word, info) :: rest) rows = row_loop' rest (rows ++ [r]).
Proof.
  intros Hlevel Hnot.
  assert (jlpt_rank !! level = None) as Hrank.
  { apply eq_None_not_Some. by rewrite jlpt_rank_known. }
  assert (level_filter min_jlpt (dict_get jlpt_dict word []) = Ok false) as Hf.
  { apply level_filter_unknown. unfold dict_get. by rewrite Hlevel. }
  destruct (row_iter_filter word info false Hf) as (r & Hmatch & Hiter).
  exists r. split_and!; [done| | |].
  - apply (matches_Front _ _ _ _ _ _ Hmatch).
  - rewrite (matches_JLPT _ _ _ _ _ _ Hmatch). simpl. by rewrite Hlevel.
  - cbn [row_loop]. by rewrite Hiter.
Qed.

End RowLoop.

(** ** The order on strings *)

Lemma str_le_refl (a : pystr) : str_le a a = true.
Proof.
  induction a as [|x a IH]; simpl; [done|].
  by rewrite N.ltb_irrefl, N.eqb_refl.
Qed.

Lemma str_le_total (a b : pystr) : str_le a b = true ∨ str_le b a = true.
Proof.
  revert b. induction a as [|x a IH]; intros [|y b]; simpl; auto.
  destruct (N.ltb_spec x y), (N.ltb_spec y x); auto; try lia.
  assert (x = y) as -> by lia. rewrite N.eqb_refl. apply IH.
Qed.

Lemma str_le_trans (a b c : pystr) :
  str_le a b = true → str_le b c = true → str_le a c = true.
Proof.
  revert b c. induction a as [|x a IH]; intros [|y b] [|z c]; simpl; try done.
  destruct (N.ltb_spec x y), (N.ltb_spec y z), (N.ltb_spec x z);
    try done; try lia;
    destruct (N.eqb_spec x y), (N.eqb_spec y z), (N.eqb_spec x z);
    try done; try lia.
  apply IH.
Qed.

Lemma str_le_antisym (a b : pystr) :
  str_le a b = true → str_le b a = true → a = b.
Proof.
  revert b. induction a as [|x a IH]; intros [|y b]; simpl; try done.
  destruct (N.ltb_spec x y), (N.ltb_spec y x); try lia;
    destruct (N.eqb_spec x y), (N.eqb_spec y x); try done; try lia.
  subst. intros H1 H2. f_equal. by apply IH.
Qed.

Lemma str_le_nil_r (a : pystr) : str_le a [] = true → a = [].
Proof. by destruct a. Qed.

Global Instance jlpt_asc_refl : Reflexive jlpt_asc.
Proof. intros r. apply str_le_refl. Qed.

Global Instance jlpt_asc_total : Total jlpt_asc.
Proof. intros r1 r2. apply str_le_total. Qed.

Global Instance jlpt_asc_trans : Transitive jlpt_asc.
Proof. intros r1 r2 r3. apply str_le_trans. Qed.

Global Instance freq_desc_total : Total freq_desc.
Proof. intros r1 r2. unfold freq_desc. lia. Qed.

Global Instance freq_desc_trans : Transitive freq_desc.
Proof. intros r1 r2 r3. unfold freq_desc. lia. Qed.

(** ** Stable insertion sort *)

Section StableSortFacts.

Context {A : Type} (R : relation A) `{!RelDecision R}.

Lemma insert_stable_Permutation (x : A) (l : list A) :
  insert_stable R x l ≡ₚ x :: l.
Proof.
  induction l as [|y l IH]; simpl; [done|].
  destruct (decide (R x y)); [done|]. rewrite IH. apply Permutation_swap.
Qed.

Lemma stable_sort_Permutation (l : list A) : stable_sort R l ≡ₚ l.
Proof.
  induction l as [|x l IH]; simpl; [done|].
  by rewrite insert_stable_Permutation, IH.
Qed.

Lemma insert_stable_sorted `{!Total R, !Transitive R} (x : A) (l : list A) :
  StronglySorted R l → StronglySorted R (insert_stable R x l).
Proof.
  induction 1 as [|y l Hl IH Hy]; simpl.
  - repeat constructor.
  - destruct (decide (R x y)) as [Hxy|Hxy].
    + constructor; [by constructor|]. constructor; [done|].
      eapply Forall_impl; [exact Hy|]. intros z Hz. by transitivity y.
    + constructor; [done|]. rewrite insert_stable_Permutation.
      constructor; [|done]. by destruct (total R x y).
Qed.

Lemma stable_sort_sorted `{!Total R, !Transitive R} (l : list A) :
  StronglySorted R (stable_sort R l).
Proof.
  induction l as [|x l IH]; simpl; [constructor|].
  by apply insert_stable_sorted.
Qed.

(** Sorting leaves a sorted list as it is. *)
Lemma stable_sort_id (l : list A) : StronglySorted R l → stable_sort R l = l.
Proof.
  induction 1 as [|x l Hl IH Hx]; simpl; [done|]. rewrite IH.
  destruct Hx as [|y l Hxy _]; simpl; [done|]. by rewrite decide_True.
Qed.

(** Stability: elements that are pairwise related keep their order. *)
Lemma insert_stable_filter (P : A → Prop) `{!∀ a, Decision (P a)}
    (x : A) (l : list A) :
  (∀ a b, P a → P b → R a b) →
  filter P (insert_stable R x l) = filter P (x :: l).
Proof.
  intros HP. induction l as [|y l IH]; simpl; [done|].
  destruct (decide (R x y)) as [Hxy|Hxy]; [done|].
  rewrite (filter_cons P y), IH, !filter_cons.
  destruct (decide (P x)), (decide (P y)); try done.
  destruct Hxy. by apply HP.
Qed.

Lemma stable_sort_filter (P : A → Prop) `{!∀ a, Decision (P a)}
    (l : list A) :
  (∀ a b, P a → P b → R a b) →
  filter P (stable_sort R l) = filter P l.
Proof.
  intros HP. induction l as [|x l IH]; simpl; [done|].
  rewrite insert_stable_filter by done. by rewrite !filter_cons, IH.
Qed.

Lemma StronglySorted_filter (P : A → Prop) `{!∀ a, Decision (P a)}
    (l : list A) :
  StronglySorted R l → StronglySorted R (filter P l).
Proof.
  induction 1 as [|x l Hl IH Hx]; [constructor|].
  rewrite filter_cons. destruct (decide (P x)); [|done].
  constructor; [done|]. rewrite Forall_forall in Hx.
  apply Forall_forall. intros y [_ Hy]%list_elem_of_filter. by apply Hx.
Qed.

(** Two sorted lists with the same elements in the same order inside every
    class of equivalent elements are equal. *)
Lemma sorted_stable_unique `{!Reflexive R}
    `{!∀ a b, Decision (R a b ∧ R b a)} (l1 l2 : list A) :
  StronglySorted R l1 → StronglySorted R l2 →
  (∀ a, filter (λ b, R a b ∧ R b a) l1 = filter (λ b, R a b ∧ R b a) l2) →
  l1 = l2.
Proof.
  intros Hs1. revert l2. induction Hs1 as [|a l1 Hl1 IH Ha]; intros l2 Hs2 Heq.
  - destruct l2 as [|b l2]; [done|]. specialize (Heq b).
    rewrite filter_cons_True in Heq by done. done.
  - destruct Hs2 as [|b l2 Hl2 Hb].
    { specialize (Heq a). by rewrite filter_cons_True in Heq by done. }
    assert (a = b) as <-.
    { destruct (decide (R a b ∧ R b a)) as [Hab|Hab].
      - specialize (Heq a).
        rewrite !filter_cons_True in Heq by done. congruence.
      - destruct Hab.
        assert (a ∈ b :: l2) as Hin2.
        { eapply (list_elem_of_filter (λ c, R a c ∧ R c a)).
          rewrite <- Heq, filter_cons_True by done. left. }
        assert (b ∈ a :: l1) as Hin1.
        { eapply (list_elem_of_filter (λ c, R b c ∧ R c b)).
          rewrite Heq, filter_cons_True by done. left. }
        apply elem_of_cons in Hin1 as [->|Hin1]; [done|].
        apply elem_of_cons in Hin2 as [->|Hin2]; [done|].
        rewrite Forall_forall in Ha, Hb. split; auto. }
    f_equal. apply IH; [done|]. intros c. specialize (Heq c).
    rewrite !(filter_cons _ a) in Heq. destruct (decide _); congruence.
Qed.

End StableSortFacts.

(** ** The sort on two columns *)

Lemma StronglySorted_lookup_lt {A} (R : relation A) (l : list A)
    (i j : nat) (a b : A) :
  StronglySorted R l → l !! i = Some a → l !! j = Some b → (i < j)%nat →
  R a b.
Proof.
  intros Hs. revert i j. induction Hs as [|x l Hl IH Hx]; intros i j; [done|].
  destruct i as [|i], j as [|j]; simpl; try lia.
  - intros [= ->] Hb _. rewrite Forall_forall in Hx. apply Hx.
    by eapply list_elem_of_lookup_2.
  - intros Ha Hb Hlt. apply (IH i j); [done|done|lia].
Qed.

Global Instance rank_le_refl : Reflexive rank_le.
Proof. intros r. split; [reflexivity|]. intros _. unfold freq_desc. lia. Qed.

Lemma rank_le_equiv (r1 r2 : Row) :
  rank_le r1 r2 ∧ rank_le r2 r1 ↔
  same_keys (JLPT r1) (Frequency_PDF r1) r2.
Proof.
  unfold rank_le, same_keys, jlpt_asc, freq_desc. split.
  - intros [[H12 F12] [H21 F21]].
    assert (JLPT r1 = JLPT r2) as Heq by by apply str_le_antisym.
    split; [done|]. specialize (F12 Heq). specialize (F21 (eq_sym Heq)). lia.
  - intros [-> ->]. rewrite str_le_refl. repeat split; intros; lia.
Qed.

Lemma same_keys_filter_jlpt jlpt freq (l : list Row) :
  filter (same_keys jlpt freq) l =
  filter (λ r, Frequency_PDF r = freq) (filter (λ r, JLPT r = jlpt) l).
Proof.
  rewrite list_filter_filter. apply list_filter_iff.
  intros r. unfold same_keys. tauto.
Qed.

Lemma same_keys_filter_freq jlpt freq (l : list Row) :
  filter (same_keys jlpt freq) l =
  filter (λ r, JLPT r = jlpt) (filter (λ r, Frequency_PDF r = freq) l).
Proof. by rewrite list_filter_filter. Qed.

Lemma lexsort_Permutation (rows : list Row) : lexsort rows ≡ₚ rows.
Proof. unfold lexsort. by rewrite !stable_sort_Permutation. Qed.

Lemma lexsort_level_class jlpt (rows : list Row) :
  filter (λ r, JLPT r = jlpt) (lexsort rows) =
  filter (λ r, JLPT r = jlpt) (stable_sort freq_desc rows).
Proof.
  unfold lexsort. apply stable_sort_filter.
  intros a b Ha Hb. unfold jlpt_asc. rewrite Ha, Hb. apply str_le_refl.
Qed.

Lemma lexsort_stable jlpt freq (rows : list Row) :
  filter (same_keys jlpt freq) (lexsort rows) =
  filter (same_keys jlpt freq) rows.
Proof.
  rewrite same_keys_filter_jlpt, lexsort_level_class.
  rewrite <- same_keys_filter_jlpt, !same_keys_filter_freq. f_equal.
  apply stable_sort_filter. intros a b Ha Hb. unfold freq_desc. lia.
Qed.

(** A list sorted on the level whose level classes are sorted on the
    frequency is sorted on the two keys. *)
Lemma rank_le_by_classes (l : list Row) :
  StronglySorted jlpt_asc l →
  (∀ jlpt, StronglySorted freq_desc (filter (λ r, JLPT r = jlpt) l)) →
  StronglySorted rank_le l.
Proof.
  induction 1 as [|x l Hl IH Hx]; intros Hcls; [constructor|].
  constructor.
  - apply IH. intros jlpt. specialize (Hcls jlpt).
    rewrite filter_cons in Hcls. destruct (decide _); [|done].
    by apply StronglySorted_inv in Hcls as [? _].
  - rewrite Forall_forall in Hx. apply Forall_forall. intros y Hy.
    split; [by apply Hx|]. intros Heq. specialize (Hcls (JLPT x)).
    rewrite filter_cons_True in Hcls by done.
    apply StronglySorted_inv in Hcls as [_ Hall].
    rewrite Forall_forall in Hall. apply Hall.
    by apply list_elem_of_filter.
Qed.

Lemma lexsort_sorted (rows : list Row) : StronglySorted rank_le (lexsort rows).
Proof.
  apply rank_le_by_classes.
  - apply stable_sort_sorted; apply _.
  - intros jlpt. rewrite lexsort_level_class.
    apply StronglySorted_filter, stable_sort_sorted; apply _.
Qed.

(** The sorted order and the stability fix the result. *)
Lemma lexsort_unique (rows out : list Row) :
  StronglySorted rank_le out →
  (∀ jlpt freq,
     filter (same_keys jlpt freq) out = filter (same_keys jlpt freq) rows) →
  out = lexsort rows.
Proof.
  intros Hs Hst. apply (sorted_stable_unique rank_le); [done|apply lexsort_sorted|].
  intros a.
  pose proof (rank_le_equiv a) as Hequiv.
  rewrite (list_filter_iff _ _ out Hequiv).
  rewrite (list_filter_iff _ _ (lexsort rows) Hequiv).
  by rewrite Hst, lexsort_stable.
Qed.

Lemma lexsort_idem (rows : list Row) : lexsort (lexsort rows) = lexsort rows.
Proof.
  symmetry. apply lexsort_unique; [apply lexsort_sorted|]. done.
Qed.

Lemma rank_le_empty_first (out : list Row) :
  StronglySorted rank_le out → empty_level_first out.
Proof.
  intros Hs i j ri rj Hi Hj Hempty Hlevel.
  destruct (decide (i < j)%nat) as [|Hge]; [done|]. exfalso.
  destruct (decide (i = j)) as [->|Hne]; [congruence|].
  assert (rank_le rj ri) as [Hle _].
  { apply (StronglySorted_lookup_lt rank_le out j i); [done..|lia]. }
  unfold jlpt_asc in Hle. rewrite Hempty in Hle.
  by apply str_le_nil_r in Hle.
Qed.

(** The Ranker fails on no row, as the frame then has no column, and sorts
    otherwise. *)
Lemma ranker_cases (rows : list Row) :
  ranker rows =
  match rows with
  | [] => Raise (KeyError (py "JLPT"))
  | _ :: _ => Ok (lexsort rows)
  end.
Proof. by destruct rows. Qed.

Example levels_ascending :
  StronglySorted (λ a b, str_le a b = true)
    [[]; py "N1"; py "N2"; py "N3"; py "N4"; py "N5"].
Proof. repeat constructor. Qed.

Example lexsort_sample :
  let row front jlpt freq :=
    {| Front := front; Reading := []; Furigana := []; POS := [];
       Meaning_EN := []; JLPT := jlpt; Frequency_PDF := freq;
       Frequency_Global := CStr [] |} in
  lexsort [row (py "a") (py "N5") 1; row (py "b") [] 2; row (py "c") (py "N1") 3;
           row (py "d") (py "N5") 7; row (py "e") [] 9; row (py "f") (py "N5") 1;
           row (py "g") [] 2] =
  [row (py "e") [] 9; row (py "b") [] 2; row (py "g") [] 2; row (py "c") (py "N1") 3;
   row (py "d") (py "N5") 7; row (py "a") (py "N5") 1; row (py "f") (py "N5") 1].
Proof. vm_compute. reflexivity. Qed.

(** C1, as stated, fails: a row without level is sorted in front of a row of
    level N5. The two rows are the ones the enrichment loop builds for a
    word of level N5 and a word that the level file does not list. With no
    row at all the sort raises [KeyError]. *)
Lemma ranker_empty_level_not_last :
  let info := {| count := 1; pos := py "Noun" |} in
  let listed :=
    {| Front := py "a"; Reading := py "a";
       Furigana := py "<ruby>a<rt>a</rt></ruby>"; POS := py "Noun";
       Meaning_EN := []; JLPT := py "N5"; Frequency_PDF := 1;
       Frequency_Global := CStr [] |} in
  let unlisted :=
    {| Front := py "b"; Reading := py "b";
       Furigana := py "<ruby>b<rt>b</rt></ruby>"; POS := py "Noun";
       Meaning_EN := []; JLPT := []; Frequency_PDF := 1;
       Frequency_Global := CStr [] |} in
  row_loop (λ w, [w]) {[ py "a" := py "N5" ]} ∅ ∅ (py "N3")
    [(py "a", info); (py "b", info)] [] = Ok [listed; unlisted] ∧
  ranker [listed; unlisted] = Ok [unlisted; listed] ∧
  ¬ empty_level_last [unlisted; listed] ∧
  ranker [] = Raise (KeyError (py "JLPT")).
Proof.
  intros info listed unlisted. split_and!.
  - vm_compute. reflexivity.
  - vm_compute. reflexivity.
  - intros Hlast.
    assert (1 < 0)%nat as Hlt; [|lia].
    apply (Hlast 0%nat 1%nat unlisted listed); try reflexivity.
    unfold LEVELS. simpl. left.
  - reflexivity.
Qed.

(** C1, amended: on at least one row the Ranker returns the rows rearranged
    in ascending order of the level string, compared code point by code
    point, and in descending order of the frequency among rows of one
    level. In that order the rows without level come before all rows with a
    level. The only failure is the one on no row. *)
Theorem ranker_sorted (rows : list Row) :
  match ranker rows with
  | Ok out =>
      out ≡ₚ rows ∧ StronglySorted rank_le out ∧ empty_level_first out
  | Raise e => rows = []
  end.
Proof.
  rewrite ranker_cases. destruct rows as [|r rows]; [done|].
  split_and!.
  - apply lexsort_Permutation.
  - apply lexsort_sorted.
  - apply rank_le_empty_first, lexsort_sorted.
Qed.

(** C2: the sort is stable: the rows with the same level and the same
    frequency are in the output in the order they had in the input. So the
    output is fixed by the input: it is the only arrangement that is sorted
    and keeps these orders, and sorting it again gives it back. The only
    failure is the one on no row. *)
Theorem ranker_stable (rows : list Row) :
  match ranker rows with
  | Ok out =>
      (∀ jlpt freq,
         filter (same_keys jlpt freq) out = filter (same_keys jlpt freq) rows) ∧
      ranker out = Ok out ∧
      (∀ out',
         StronglySorted rank_le out' →
         (∀ jlpt freq,
            filter (same_keys jlpt freq) out' =
            filter (same_keys jlpt freq) rows) →
         out' = out)
  | Raise e => rows = []
  end.
Proof.
  rewrite ranker_cases. destruct rows as [|r rows]; [done|].
  split_and!.
  - intros jlpt freq. apply lexsort_stable.
  - rewrite ranker_cases, lexsort_idem.
    destruct (lexsort (r :: rows)) eqn:Hsort; [|done].
    pose proof (lexsort_Permutation (r :: rows)) as Hp. rewrite Hsort in Hp.
    by apply Permutation_nil_l in Hp.
  - intros out' Hs Hst. by apply lexsort_unique.
Qed.


Lemma enrichment_filter_witness :
  py "N3" ∈ LEVELS ∧
  ∃ rows,
    row_loop (λ w, [w]) {[ py "a" := py "N1" ]} ∅ ∅ (py "N3")
      [ (py "a", {| count := 2; pos := py "Noun" |});
        (py "b", {| count := 1; pos := py "Verb" |}) ] [] = Ok rows ∧
    Front <$> rows = [py "b"].
Proof.
  assert (py "N3" ∈ LEVELS) as Hmin by (right; right; left).
  split; [exact Hmin|].
  destruct (enrichment_filter (λ w, [w]) {[ py "a" := py "N1" ]} ∅ ∅ (py "N3")
              [ (py "a", {| count := 2; pos := py "Noun" |});
                (py "b", {| count := 1; pos := py "Verb" |}) ] Hmin)
    as (rows & Hloop & Hfronts & _).
  exists rows. split; [exact Hloop|]. rewrite Hfronts. vm_compute. reflexivity.
Defined.

Lemma sort_values_cons (r : Row) (rows : list Row) :
  sort_values (pd_DataFrame (r :: rows)) =
  Ok {| columns := COLUMNS; records := lexsort (r :: rows) |}.
Proof. reflexivity. Qed.

(** C9: with one of the five levels as minimum, the table of a run has the
    columns Front, Reading, Furigana, POS, Meaning_EN, JLPT, Frequency_PDF,
    Frequency_Global, in this order, and so has every row. The front of a
    row is a word of the vocabulary, its reading is the hiragana segments of
    that word put together, and its furigana is the ruby markup around the
    word and the reading. The run gives no table only when no row was
    built. *)
Theorem output_row_schema (tokenize : pystr → list Token)
    (convert : pystr → list pystr) (jlpt_dict : gmap pystr pystr)
    (freq_dict : gmap pystr Z) (en_dict : gmap pystr pystr)
    (min_jlpt : pystr) (pages : list (option pystr)) :
  min_jlpt ∈ LEVELS →
  match procesar tokenize convert jlpt_dict freq_dict en_dict min_jlpt pages with
  | Ok df =>
      columns df = COLUMNS ∧
      ∀ r, r ∈ records df →
        (row_items r).*1 = COLUMNS ∧
        Front r ∈ (page_loop tokenize pages).*1 ∧
        Reading r = concat (convert (Front r)) ∧
        Furigana r =
          py "<ruby>" ++ Front r ++ py "<rt>" ++ Reading r ++ py "</rt></ruby>"
  | Raise e =>
      row_loop convert jlpt_dict freq_dict en_dict min_jlpt
        (page_loop tokenize pages) [] = Ok []
  end.
Proof.
  intros [m Hm]%jlpt_rank_known. unfold procesar.
  destruct (row_loop_known convert jlpt_dict freq_dict en_dict min_jlpt
              (page_loop tokenize pages) [] m Hm) as (rows & Hloop & Hall).
  simpl in Hloop. rewrite Hloop. cbn [mbind result_bind].
  destruct rows as [|r0 rows]; [done|]. rewrite sort_values_cons.
  split; [done|]. intros r Hr. cbn [records] in Hr.
  rewrite lexsort_Permutation in Hr.
  destruct (matches_elem _ _ _ _ _ _ _ Hall Hr) as (e & He & Hmatch).
  split_and!.
  - done.
  - rewrite (matches_Front _ _ _ _ _ _ Hmatch).
    apply list_elem_of_fmap. exists e. split; [done|].
    by apply list_elem_of_filter in He as [_ He].
  - rewrite (matches_Reading _ _ _ _ _ _ Hmatch).
    by rewrite (matches_Front _ _ _ _ _ _ Hmatch).
  - rewrite (matches_Furigana _ _ _ _ _ _ Hmatch).
    by rewrite (matches_Front _ _ _ _ _ _ Hmatch).
Qed.

Lemma output_row_schema_witness :
  py "N3" ∈ LEVELS ∧
  ∃ df,
    procesar
      (λ clean, [ {| part_of_speech := Ok [DOUSHI];
                     dictionary_form := Ok clean |} ])
      (λ w, [w]) ∅ ∅ ∅ (py "N3") [Some (py "a b"); None] = Ok df ∧
    columns df = COLUMNS.
Proof.
  assert (py "N3" ∈ LEVELS) as Hmin by (right; right; left).
  split; [exact Hmin|].
  pose proof (output_row_schema
    (λ clean, [ {| part_of_speech := Ok [DOUSHI];
                   dictionary_form := Ok clean |} ])
    (λ w, [w]) ∅ ∅ ∅ (py "N3") [Some (py "a b"); None] Hmin) as Hrun.
  destruct (procesar _ _ _ _ _ _ _) as [df|e] eqn:Hdf.
  - exists df. split; [reflexivity|apply Hrun].
  - vm_compute in Hrun. discriminate Hrun.
Defined.

(** C10: a level that the level dict holds for a word and that is none of
    the five level strings never makes the filter drop the entry. Whatever
    the minimum level is, the body of the loop ends without error on that
    word and appends a row with that value as its level. With one of the
    five levels as minimum, the loop over a vocabulary that holds the word
    ends without error and its rows hold a row of that word with that value
    as its level and the frequency of the entry, and the run on a document
    whose vocabulary holds the word gives a table that holds such a row. *)
Theorem malformed_level_kept (tokenize : pystr → list Token)
    (convert : pystr → list pystr) (jlpt_dict : gmap pystr pystr)
    (freq_dict : gmap pystr Z) (en_dict : gmap pystr pystr)
    (min_jlpt word level : pystr) :
  jlpt_dict !! word = Some level → level ∉ LEVELS →
  (∀ any_min info,
     ∃ r, row_iter convert jlpt_dict freq_dict en_dict any_min word info =
            Ok (Some r) ∧
          Front r = word ∧ JLPT r = level) ∧
  (min_jlpt ∈ LEVELS →
   (∀ (vocab : Vocab) info, (word, info) ∈ vocab →
      ∃ rows r,
        row_loop convert jlpt_dict freq_dict en_dict min_jlpt vocab [] =
          Ok rows ∧
        r ∈ rows ∧ Front r = word ∧ JLPT r = level ∧
        Frequency_PDF r = count info) ∧
   (∀ pages, word ∈ (page_loop tokenize pages).*1 →
      ∃ df r,
        procesar tokenize convert jlpt_dict freq_dict en_dict min_jlpt pages =
          Ok df ∧
        r ∈ records df ∧ Front r = word ∧ JLPT r = level)).
Proof.
  intros Hlevel Hnot.
  assert (jlpt_rank !! level = None) as Hrank.
  { apply eq_None_not_Some. by rewrite jlpt_rank_known. }
  assert (Hloop : ∀ m, jlpt_rank !! min_jlpt = Some m →
    ∀ (vocab : Vocab) info, (word, info) ∈ vocab →
      ∃ rows r,
        row_loop convert jlpt_dict freq_dict en_dict min_jlpt vocab [] =
          Ok rows ∧
        r ∈ rows ∧ Front r = word ∧ JLPT r = level ∧
        Frequency_PDF r = count info).
  { intros m Hm vocab info Hin.
    destruct (row_loop_known convert jlpt_dict freq_dict en_dict min_jlpt
                vocab [] m Hm) as (rows & Hrows & Hall).
    simpl in Hrows.
    assert ((word, info) ∈
            filter (λ e : pystr * Info,
                      too_advanced jlpt_dict min_jlpt e.1 = false) vocab)
      as Hkept.
    { apply list_elem_of_filter. split; [|done]. simpl.
      unfold too_advanced. by rewrite Hlevel, Hrank. }
    apply list_elem_of_lookup in Hkept as [i Hi].
    destruct (Forall2_lookup_l _ _ _ _ _ Hall Hi) as (r & Hr & Hmatch).
    exists rows, r. split_and!.
    - done.
    - by eapply list_elem_of_lookup_2.
    - apply (matches_Front _ _ _ _ _ _ Hmatch).
    - rewrite (matches_JLPT _ _ _ _ _ _ Hmatch). simpl. by rewrite Hlevel.
    - apply (matches_Frequency_PDF _ _ _ _ _ _ Hmatch). }
  split.
  - intros any_min info.
    destruct (row_iter_malformed convert jlpt_dict freq_dict en_dict any_min
                word info level [] [] Hlevel Hnot)
      as (r & Hiter & Hfront & Hjlpt & _).
    by exists r.
  - intros [m Hm]%jlpt_rank_known. split; [by apply (Hloop m)|].
    intros pages ([w info] & -> & Hin)%list_elem_of_fmap. simpl in *.
    destruct (Hloop m Hm _ _ Hin) as (rows & r & Hrows & Hr & Hfront & Hjlpt & _).
    unfold procesar. rewrite Hrows. cbn [mbind result_bind].
    destruct rows as [|r0 rows]; [by apply elem_of_nil in Hr|].
    rewrite sort_values_cons. eexists _, r. split; [reflexivity|].
    cbn [records]. by rewrite lexsort_Permutation.
Qed.

Lemma malformed_level_kept_witness :
  let tokenize := λ clean : pystr,
    [ {| part_of_speech := Ok [MEISHI]; dictionary_form := Ok clean |} ] in
  let jlpt_dict : gmap pystr pystr :=
    {[ py "a" := py "n3"; py "b" := py "N5" ]} in
  jlpt_dict !! py "a" = Some (py "n3") ∧
  (py "n3" ∉ LEVELS) ∧
  py "N5" ∈ LEVELS ∧
  py "a" ∈ (page_loop tokenize [Some (py "b"); Some (py "a")]).*1 ∧
  ∃ df r,
    procesar tokenize (λ w, [w]) jlpt_dict ∅ ∅ (py "N5")
      [Some (py "b"); Some (py "a")] = Ok df ∧
    r ∈ records df ∧ Front r = py "a" ∧ JLPT r = py "n3".
Proof.
  intros tokenize jlpt_dict.
  assert (jlpt_dict !! py "a" = Some (py "n3")) as Hlevel
    by (vm_compute; reflexivity).
  assert (py "n3" ∉ LEVELS) as Hnot.
  { unfold LEVELS. rewrite !not_elem_of_cons. vm_compute.
    repeat split; try discriminate. apply not_elem_of_nil. }
  assert (py "N5" ∈ LEVELS) as Hmin by left.
  assert (py "a" ∈ (page_loop tokenize [Some (py "b"); Some (py "a")]).*1)
    as Hword by (vm_compute; right; left).
  split; [exact Hlevel|]. split; [exact Hnot|]. split; [exact Hmin|].
  split; [exact Hword|].
  destruct (malformed_level_kept tokenize (λ w, [w]) jlpt_dict ∅ ∅ (py "N5")
              (py "a") (py "n3") Hlevel Hnot) as [_ Hrun].
  destruct (Hrun Hmin) as [_ Htable].
  exact (Htable [Some (py "b"); Some (py "a")] Hword).
Defined.

(** * Further properties of the code *)

(** ** Cleaning and blank pages *)

(** X1: cleaning a cleaned text changes nothing, cleaning commutes with
    concatenation, and the cleaned text is never longer than the text. *)
Theorem limpiar_texto_idempotent_app (s1 s2 : pystr) :
  limpiar_texto (limpiar_texto s1) = limpiar_texto s1 ∧
  limpiar_texto (s1 ++ s2) = limpiar_texto s1 ++ limpiar_texto s2 ∧
  (length (limpiar_texto s1) ≤ length s1)%nat.
Proof.
  rewrite !limpiar_texto_filter. split_and!.
  - rewrite list_filter_filter. apply list_filter_iff. tauto.
  - apply filter_app.
  - apply length_filter.
Qed.

Lemma limpiar_texto_nil_iff (s : pystr) :
  limpiar_texto s = [] ↔ Forall blank_char s.
Proof.
  rewrite limpiar_texto_filter. unfold blank_char.
  induction s as [|c s IH]; [by split; [constructor|]|].
  rewrite filter_cons, Forall_cons. destruct (decide _) as [Hc|Hc].
  - split; [done|]. intros [Hb _]. destruct Hc as (? & ? & ?).
    by destruct Hb as [?|[?|?]].
  - rewrite IH. split; [|by intros [_ ?]]. intros Hs. split; [|done].
    destruct (decide (c = LF)); [tauto|].
    destruct (decide (c = SPACE)); [tauto|].
    destruct (decide (c = IDEOGRAPHIC_SPACE)); [tauto|]. by destruct Hc.
Qed.

Lemma page_iter_blank tokenize (vocab : Vocab) (raw_text : option pystr) :
  blank_page raw_text → page_iter tokenize vocab raw_text = vocab.
Proof.
  destruct raw_text as [txt|]; [|done]. simpl. intros Hb.
  apply limpiar_texto_nil_iff in Hb. unfold page_iter.
  destruct (str_truthy txt); [|done]. simpl. by rewrite Hb.
Qed.

(** X2: the text of a page is cleaned to the empty string exactly when it
    holds nothing but line feeds, spaces and full-width spaces; a page
    without text or with such a text is skipped wherever it stands in the
    document, whatever the tokenizer would have made of it. *)
Theorem blank_page_skipped (tokenize : pystr → list Token)
    (before after : list (option pystr)) (raw_text : option pystr) :
  blank_page raw_text →
  (∀ txt, raw_text = Some txt → limpiar_texto txt = []) ∧
  page_loop tokenize (before ++ raw_text :: after) =
    page_loop tokenize (before ++ after).
Proof.
  intros Hb. split.
  - intros txt ->. by apply limpiar_texto_nil_iff.
  - unfold page_loop. rewrite !foldl_app. simpl.
    by rewrite page_iter_blank.
Qed.

Lemma blank_page_skipped_witness :
  blank_page (Some [LF; SPACE; IDEOGRAPHIC_SPACE]) ∧
  page_loop (λ clean, [ {| part_of_speech := Ok [MEISHI];
                           dictionary_form := Ok clean |} ])
    [Some (py "a"); Some [LF; SPACE; IDEOGRAPHIC_SPACE]; Some (py "b")] =
  page_loop (λ clean, [ {| part_of_speech := Ok [MEISHI];
                           dictionary_form := Ok clean |} ])
    [Some (py "a"); Some (py "b")].
Proof.
  assert (blank_page (Some [LF; SPACE; IDEOGRAPHIC_SPACE])) as Hb.
  { simpl. unfold blank_char. repeat constructor; tauto. }
  split; [exact Hb|].
  apply (blank_page_skipped _ [Some (py "a")] [Some (py "b")] _ Hb).
Defined.

(** ** Frequencies and growth of the vocabulary *)

Lemma occurrences_cons base t ts :
  occurrences base (t :: ts) =
  match survives t with
  | Some (b, _) =>
      if decide (b = base) then S (occurrences base ts) else occurrences base ts
  | None => occurrences base ts
  end.
Proof.
  unfold occurrences. simpl. destruct (survives t) as [[b pos_jp]|]; [|done].
  rewrite filter_cons. simpl. by destruct (decide (b = base)).
Qed.

Lemma token_loop_count ts (vocab : Vocab) (base : pystr) :
  count <$> vocab_lookup base (token_loop ts vocab) =
  match vocab_lookup base vocab with
  | Some info => Some (count info + Z.of_nat (occurrences base ts))
  | None =>
      match occurrences base ts with
      | O => None
      | S n => Some (Z.of_nat (S n))
      end
  end.
Proof.
  revert vocab. induction ts as [|t ts IH]; intros vocab.
  - unfold token_loop, occurrences. simpl.
    destruct (vocab_lookup base vocab); simpl; [f_equal; lia|done].
  - rewrite token_loop_cons, IH, token_iter_step, occurrences_cons.
    destruct (survives t) as [[b pos_jp]|]; [|done].
    rewrite aggregate_step_lookup.
    destruct (decide (base = b)) as [->|Hne].
    + rewrite decide_True by done.
      destruct (vocab_lookup b vocab); simpl; f_equal; lia.
    + by rewrite decide_False.
Qed.

(** X3: the frequency recorded for a lemma is the number of surviving
    tokens with that lemma, and a lemma has an entry exactly when there is
    such a token. *)
Theorem lemma_frequency (tokens : list Token) (base : pystr) :
  count <$> vocab_lookup base (token_loop tokens []) =
  match occurrences base tokens with
  | O => None
  | S n => Some (Z.of_nat (S n))
  end.
Proof. by rewrite token_loop_count. Qed.

(** X4: the frequencies do not depend on the order of the tokens: two
    token sequences that are rearrangements of each other give every lemma
    the same frequency, and the same sum of frequencies. *)
Theorem frequency_order_insensitive (tokens tokens' : list Token)
    (base : pystr) :
  tokens ≡ₚ tokens' →
  count <$> vocab_lookup base (token_loop tokens []) =
    count <$> vocab_lookup base (token_loop tokens' []) ∧
  total_count (token_loop tokens []) = total_count (token_loop tokens' []).
Proof.
  intros Hp. rewrite !token_loop_count, !token_loop_total. simpl.
  unfold occurrences. by rewrite Hp.
Qed.

Lemma frequency_order_insensitive_witness :
  let a := {| part_of_speech := Ok [MEISHI]; dictionary_form := Ok (py "a") |} in
  let b := {| part_of_speech := Ok [DOUSHI]; dictionary_form := Ok (py "a") |} in
  [a; b] ≡ₚ [b; a] ∧
  count <$> vocab_lookup (py "a") (token_loop [a; b] []) =
    count <$> vocab_lookup (py "a") (token_loop [b; a] []) ∧
  pos <$> vocab_lookup (py "a") (token_loop [a; b] []) ≠
    pos <$> vocab_lookup (py "a") (token_loop [b; a] []).
Proof.
  intros a b.
  assert ([a; b] ≡ₚ [b; a]) as Hp by apply Permutation_swap.
  split; [exact Hp|]. split.
  - apply (frequency_order_insensitive [a; b] [b; a] (py "a") Hp).
  - vm_compute. discriminate.
Defined.

Lemma aggregate_step_keys (vocab : Vocab) (base tag : pystr) :
  vocab.*1 `prefix_of` (aggregate_step vocab base tag).*1.
Proof.
  unfold aggregate_step.
  destruct (vocab_lookup base vocab) as [info|] eqn:Hl.
  - by rewrite (vocab_setitem_keys _ _ info).
  - rewrite fmap_app. by apply prefix_app_r.
Qed.

Lemma token_loop_keys ts (vocab : Vocab) :
  vocab.*1 `prefix_of` (token_loop ts vocab).*1.
Proof.
  revert vocab. induction ts as [|t ts IH]; intros vocab; [done|].
  rewrite token_loop_cons. etrans; [|apply IH]. rewrite token_iter_step.
  destruct (survives t) as [[base pos_jp]|]; [|done].
  apply aggregate_step_keys.
Qed.

(** X5: the token loop only extends the dict: the words it held stay at
    their places, new words go behind them, and an entry keeps its tag while
    its frequency never goes down. So the entries are in the order in which
    the lemmas were first met. *)
Theorem vocab_only_grows (tokens : list Token) (vocab : Vocab)
    (base : pystr) :
  vocab.*1 `prefix_of` (token_loop tokens vocab).*1 ∧
  match vocab_lookup base vocab with
  | Some info =>
      ∃ info',
        vocab_lookup base (token_loop tokens vocab) = Some info' ∧
        pos info' = pos info ∧ count info ≤ count info'
  | None => True
  end.
Proof.
  split; [apply token_loop_keys|].
  destruct (vocab_lookup base vocab) as [info|] eqn:Hl; [|done].
  pose proof (token_loop_count tokens vocab base) as Hc.
  pose proof (token_loop_pos tokens vocab base) as Hp.
  rewrite Hl in Hc, Hp. simpl in Hp.
  destruct (vocab_lookup base (token_loop tokens vocab)) as [info'|];
    [|done].
  exists info'. simpl in *. split; [done|]. split; [congruence|].
  injection Hc as ->. lia.
Qed.

(** ** The level filter and the threshold *)

Lemma filter_all {A} (P : A → Prop) `{!∀ x, Decision (P x)} (l : list A) :
  (∀ x, P x) → filter P l = l.
Proof.
  intros HP. induction l as [|x l IH]; [done|].
  by rewrite filter_cons_True, IH.
Qed.

Lemma jlpt_rank_range (s : pystr) (r : Z) :
  jlpt_rank !! s = Some r → 1 ≤ r ≤ 5.
Proof.
  rewrite jlpt_rank_cases. repeat case_decide; intros [= <-]; lia.
Qed.

Lemma level_filter_unknown_min (min_jlpt jlpt : pystr) :
  jlpt_rank !! min_jlpt = None →
  level_filter min_jlpt jlpt =
  if dict_contains jlpt_rank jlpt then Raise (KeyError min_jlpt) else Ok false.
Proof.
  intros Hmin. unfold level_filter, dict_contains, dict_getitem.
  destruct jlpt as [|c jlpt]; simpl.
  - by rewrite jlpt_rank_empty, bool_decide_false by (by intros [? ?]).
  - destruct (jlpt_rank !! (c :: jlpt)) as [r|] eqn:Hr.
    + rewrite bool_decide_true by eauto. simpl. by rewrite Hmin.
    + by rewrite bool_decide_false by (by intros [? ?]).
Qed.

Section Threshold.

Context (convert : pystr → list pystr).
Context (jlpt_dict : gmap pystr pystr) (freq_dict : gmap pystr Z).
Context (en_dict : gmap pystr pystr).

Local Abbreviation row_loop' := (row_loop convert jlpt_dict freq_dict en_dict).
Local Abbreviation matches' := (row_matches convert jlpt_dict freq_dict en_dict).

Lemma level_filter_has_known_level (min_jlpt word : pystr) :
  jlpt_rank !! min_jlpt = None →
  level_filter min_jlpt (dict_get jlpt_dict word []) =
  if has_known_level jlpt_dict word then Raise (KeyError min_jlpt)
  else Ok false.
Proof.
  intros Hmin. rewrite level_filter_unknown_min by done.
  unfold has_known_level, dict_get.
  destruct (jlpt_dict !! word) as [level|]; simpl; [done|].
  unfold dict_contains.
  by rewrite jlpt_rank_empty, bool_decide_false by (by intros [? ?]).
Qed.

(** X6: with a minimum level that is none of the five level strings, the
    loop raises [KeyError] with that string as soon as some word has one of
    the five levels, and only then; when no word has, it ends with one row
    per entry. The rows built so far play no part. *)
Theorem unknown_minimum_level (min_jlpt : pystr) (vocab : Vocab)
    (rows : list Row) :
  min_jlpt ∉ LEVELS →
  match row_loop' min_jlpt vocab rows with
  | Ok out =>
      Forall (λ e, has_known_level jlpt_dict e.1 = false) vocab ∧
      Front <$> out = (Front <$> rows) ++ vocab.*1
  | Raise e =>
      e = KeyError min_jlpt ∧
      Exists (λ e, has_known_level jlpt_dict e.1 = true) vocab
  end.
Proof.
  intros Hnot.
  assert (jlpt_rank !! min_jlpt = None) as Hmin.
  { apply eq_None_not_Some. by rewrite jlpt_rank_known. }
  revert rows. induction vocab as [|[word info] rest IH]; intros rows.
  - simpl. split; [constructor|by rewrite app_nil_r].
  - cbn [row_loop]. unfold row_iter.
    rewrite (level_filter_has_known_level _ _ Hmin).
    destruct (has_known_level jlpt_dict word) eqn:Hknown; simpl.
    + split; [done|]. by left.
    + match goal with
      | |- context [row_loop' _ rest (rows ++ [?r])] => specialize (IH (rows ++ [r]))
      end.
      destruct (row_loop' min_jlpt rest _) as [out|e].
      * destruct IH as [Hall Hfronts]. split; [by constructor|].
        rewrite Hfronts, fmap_app, <- app_assoc. done.
      * destruct IH as [-> Hex]. split; [done|]. by right.
Qed.

Lemma too_advanced_monotone (min1 min2 word : pystr) (a b : Z) :
  jlpt_rank !! min1 = Some a → jlpt_rank !! min2 = Some b → a ≤ b →
  too_advanced jlpt_dict min1 word = false →
  too_advanced jlpt_dict min2 word = false.
Proof.
  unfold too_advanced. intros -> -> Hab.
  destruct (jlpt_dict !! word) as [level|]; [|done].
  destruct (jlpt_rank !! level) as [r|]; [|done].
  rewrite !bool_decide_eq_false. lia.
Qed.

(** X7: a more advanced minimum level never removes a row: the words kept
    at a minimum level are, in the same order, among the words kept at any
    minimum level of greater or equal rank, and at N1 every entry gets its
    row. *)
Theorem threshold_monotone (min1 min2 : pystr) (a b : Z) (vocab : Vocab) :
  jlpt_rank !! min1 = Some a → jlpt_rank !! min2 = Some b → a ≤ b →
  ∃ rows1 rows2,
    row_loop' min1 vocab [] = Ok rows1 ∧
    row_loop' min2 vocab [] = Ok rows2 ∧
    (Front <$> rows1) `sublist_of` (Front <$> rows2) ∧
    (b = 5 → Front <$> rows2 = vocab.*1).
Proof.
  intros Ha Hb Hab.
  destruct (row_loop_known convert jlpt_dict freq_dict en_dict min1
              vocab [] a Ha) as (rows1 & Hloop1 & Hall1).
  destruct (row_loop_known convert jlpt_dict freq_dict en_dict min2
              vocab [] b Hb) as (rows2 & Hloop2 & Hall2).
  exists rows1, rows2. simpl in Hloop1, Hloop2.
  rewrite (matches_fronts _ _ _ _ _ _ Hall1).
  rewrite (matches_fronts _ _ _ _ _ _ Hall2).
  split_and!; [done|done| |].
  - apply fmap_sublist.
    rewrite <- (list_filter_filter_l
      (λ e : pystr * Info, too_advanced jlpt_dict min1 e.1 = false)
      (λ e : pystr * Info, too_advanced jlpt_dict min2 e.1 = false)).
    + apply sublist_filter.
    + intros e He. apply (too_advanced_monotone min1 min2 e.1 a b Ha Hb Hab He).
  - intros ->. f_equal. apply filter_all. intros [word info]. simpl.
    unfold too_advanced. rewrite Hb.
    destruct (jlpt_dict !! word) as [level|]; [|done].
    destruct (jlpt_rank !! level) as [r|] eqn:Hr; [|done].
    apply jlpt_rank_range in Hr. rewrite bool_decide_eq_false. lia.
Qed.

End Threshold.

Lemma unknown_minimum_level_witness :
  (py "N6" ∉ LEVELS) ∧
  row_loop (λ w, [w]) {[ py "a" := py "N2" ]} ∅ ∅ (py "N6")
    [ (py "b", {| count := 1; pos := py "Noun" |});
      (py "a", {| count := 1; pos := py "Noun" |}) ] [] =
  Raise (KeyError (py "N6")).
Proof.
  assert (py "N6" ∉ LEVELS) as Hnot.
  { unfold LEVELS. rewrite !not_elem_of_cons. vm_compute.
    repeat split; try discriminate. apply not_elem_of_nil. }
  split; [exact Hnot|].
  pose proof (unknown_minimum_level (λ w, [w]) {[ py "a" := py "N2" ]} ∅ ∅
    (py "N6")
    [ (py "b", {| count := 1; pos := py "Noun" |});
      (py "a", {| count := 1; pos := py "Noun" |}) ] [] Hnot) as Hrun.
  destruct (row_loop _ _ _ _ _ _ _) as [out|e] eqn:Hloop.
  - vm_compute in Hloop. discriminate Hloop.
  - destruct Hrun as [-> _]. reflexivity.
Defined.

Lemma threshold_monotone_witness :
  jlpt_rank !! py "N4" = Some 2 ∧ jlpt_rank !! py "N1" = Some 5 ∧ 2 ≤ 5 ∧
  ∃ rows1 rows2,
    row_loop (λ w, [w]) {[ py "a" := py "N2" ]} ∅ ∅ (py "N4")
      [ (py "a", {| count := 1; pos := py "Noun" |});
        (py "b", {| count := 1; pos := py "Noun" |}) ] [] = Ok rows1 ∧
    row_loop (λ w, [w]) {[ py "a" := py "N2" ]} ∅ ∅ (py "N1")
      [ (py "a", {| count := 1; pos := py "Noun" |});
        (py "b", {| count := 1; pos := py "Noun" |}) ] [] = Ok rows2 ∧
    Front <$> rows2 = [py "a"; py "b"].
Proof.
  assert (jlpt_rank !! py "N4" = Some 2) as Ha by (vm_compute; reflexivity).
  assert (jlpt_rank !! py "N1" = Some 5) as Hb by (vm_compute; reflexivity).
  assert (2 ≤ 5) as Hab by lia.
  split; [exact Ha|]. split; [exact Hb|]. split; [exact Hab|].
  destruct (threshold_monotone (λ w, [w]) {[ py "a" := py "N2" ]} ∅ ∅
    (py "N4") (py "N1") 2 5
    [ (py "a", {| count := 1; pos := py "Noun" |});
      (py "b", {| count := 1; pos := py "Noun" |}) ] Ha Hb Hab)
    as (rows1 & rows2 & H1 & H2 & _ & Hall).
  exists rows1, rows2. split; [exact H1|]. split; [exact H2|].
  apply Hall. reflexivity.
Defined.

(** ** The rows of a whole run *)

Lemma vocab_lookup_elem (vocab : Vocab) (word : pystr) (info : Info) :
  NoDup vocab.*1 → (word, info) ∈ vocab → vocab_lookup word vocab = Some info.
Proof.
  induction vocab as [|[k v] rest IH]; [by intros _ ?%elem_of_nil|].
  rewrite fmap_cons. intros [Hk Hnd]%NoDup_cons [Heq|Hin]%elem_of_cons; simpl.
  - injection Heq as -> ->. by rewrite decide_True.
  - rewrite decide_False; [by apply IH|]. intros ->. apply Hk.
    apply list_elem_of_fmap. by exists (k, info).
Qed.

Lemma display_tag_closed (pos_jp : pystr) : display_tag pos_jp ∈ DISPLAY_TAGS.
Proof.
  rewrite display_tag_cases. unfold DISPLAY_TAGS.
  repeat case_decide; rewrite !elem_of_cons; tauto.
Qed.

Lemma first_tag_closed (base tag : pystr) (tokens : list Token) :
  first_tag base tokens = Some tag → tag ∈ DISPLAY_TAGS.
Proof.
  unfold first_tag. destruct (head _) as [p|]; [|done].
  intros [= <-]. apply display_tag_closed.
Qed.

(** X8: every row of the table of a run tells the document: its frequency
    is the number of surviving tokens with its word as lemma, so at least
    1, its tag is the display tag of the first of them, so one of the five
    display tags, its level is the one the level dict holds for the word or
    the empty string, and that level is not too advanced. No two rows have
    the same front. *)
Theorem run_rows_sound (tokenize : pystr → list Token)
    (convert : pystr → list pystr) (jlpt_dict : gmap pystr pystr)
    (freq_dict : gmap pystr Z) (en_dict : gmap pystr pystr)
    (min_jlpt : pystr) (pages : list (option pystr)) :
  min_jlpt ∈ LEVELS →
  match procesar tokenize convert jlpt_dict freq_dict en_dict min_jlpt pages with
  | Ok df =>
      NoDup (Front <$> records df) ∧
      ∀ r, r ∈ records df →
        Frequency_PDF r =
          Z.of_nat (occurrences (Front r) (document_tokens tokenize pages)) ∧
        1 ≤ Frequency_PDF r ∧
        first_tag (Front r) (document_tokens tokenize pages) = Some (POS r) ∧
        POS r ∈ DISPLAY_TAGS ∧
        JLPT r = default [] (jlpt_dict !! Front r) ∧
        too_advanced jlpt_dict min_jlpt (Front r) = false
  | Raise e =>
      row_loop convert jlpt_dict freq_dict en_dict min_jlpt
        (page_loop tokenize pages) [] = Ok []
  end.
Proof.
  intros [m Hm]%jlpt_rank_known. unfold procesar.
  destruct (row_loop_known convert jlpt_dict freq_dict en_dict min_jlpt
              (page_loop tokenize pages) [] m Hm) as (rows & Hloop & Hall).
  simpl in Hloop. rewrite Hloop. cbn [mbind result_bind].
  destruct rows as [|r0 rows]; [done|]. rewrite sort_values_cons.
  cbn [records]. set (out := r0 :: rows) in *.
  assert (NoDup (page_loop tokenize pages).*1) as Hnd.
  { rewrite page_loop_tokens. apply token_loop_NoDup. constructor. }
  split.
  - rewrite lexsort_Permutation, (matches_fronts _ _ _ _ _ _ Hall).
    eapply sublist_NoDup; [exact Hnd|]. apply fmap_sublist, sublist_filter.
  - intros r Hr. rewrite lexsort_Permutation in Hr.
    destruct (matches_elem _ _ _ _ _ _ _ Hall Hr) as ([word info] & He & Hmatch).
    apply list_elem_of_filter in He as [Hkept He]. simpl in Hkept.
    pose proof (vocab_lookup_elem _ _ _ Hnd He) as Hlook.
    rewrite page_loop_tokens in Hlook.
    pose proof (token_loop_count (document_tokens tokenize pages) [] word) as Hc.
    pose proof (token_loop_pos (document_tokens tokenize pages) [] word) as Hp.
    rewrite Hlook in Hc, Hp. simpl in Hc, Hp.
    rewrite (matches_Front _ _ _ _ _ _ Hmatch).
    rewrite (matches_Frequency_PDF _ _ _ _ _ _ Hmatch).
    rewrite (matches_POS _ _ _ _ _ _ Hmatch).
    rewrite (matches_JLPT _ _ _ _ _ _ Hmatch). simpl.
    destruct (occurrences word (document_tokens tokenize pages)) as [|n];
      [done|].
    injection Hc as Hc. split_and!; [done|lia|done| |done|done].
    by eapply first_tag_closed.
Qed.

Lemma run_rows_sound_witness :
  py "N3" ∈ LEVELS ∧
  ∃ df,
    procesar
      (λ clean, [ {| part_of_speech := Ok [DOUSHI];
                     dictionary_form := Ok clean |} ])
      (λ w, [w]) ∅ ∅ ∅ (py "N3") [Some (py "a"); Some (py " a")] = Ok df ∧
    NoDup (Front <$> records df).
Proof.
  assert (py "N3" ∈ LEVELS) as Hmin by (right; right; left).
  split; [exact Hmin|].
  pose proof (run_rows_sound
    (λ clean, [ {| part_of_speech := Ok [DOUSHI];
                   dictionary_form := Ok clean |} ])
    (λ w, [w]) ∅ ∅ ∅ (py "N3") [Some (py "a"); Some (py " a")] Hmin) as Hrun.
  destruct (procesar _ _ _ _ _ _ _) as [df|e] eqn:Hdf.
  - exists df. split; [reflexivity|apply Hrun].
  - vm_compute in Hrun. discriminate Hrun.
Defined.

Lemma token_loop_no_survivor ts (vocab : Vocab) :
  omap survives ts = [] → token_loop ts vocab = vocab.
Proof.
  revert vocab. induction ts as [|t ts IH]; intros vocab Hnone; [done|].
  rewrite token_loop_cons, token_iter_step. simpl in Hnone.
  destruct (survives t) as [[base pos_jp]|]; [done|]. by apply IH.
Qed.

(** X9: when no token of the document survives (no page has text, or the
    tokenizer finds only particles, auxiliary verbs and unreadable tokens),
    the run ends with [KeyError] on the column JLPT, whatever the three
    dicts and the minimum level are: there is no empty table. *)
Theorem empty_vocabulary_fails (tokenize : pystr → list Token)
    (convert : pystr → list pystr) (jlpt_dict : gmap pystr pystr)
    (freq_dict : gmap pystr Z) (en_dict : gmap pystr pystr)
    (min_jlpt : pystr) (pages : list (option pystr)) :
  omap survives (document_tokens tokenize pages) = [] →
  page_loop tokenize pages = [] ∧
  procesar tokenize convert jlpt_dict freq_dict en_dict min_jlpt pages =
    Raise (KeyError (py "JLPT")).
Proof.
  intros Hnone.
  assert (page_loop tokenize pages = []) as Hvocab.
  { rewrite page_loop_tokens. by apply token_loop_no_survivor. }
  split; [done|]. unfold procesar. by rewrite Hvocab.
Qed.

Lemma empty_vocabulary_fails_witness :
  let tokenize := λ clean : pystr,
    [ {| part_of_speech := Ok [JOSHI]; dictionary_form := Ok clean |} ] in
  omap survives (document_tokens tokenize [None; Some (py "wa"); Some []]) = [] ∧
  procesar tokenize (λ w, [w]) ∅ ∅ ∅ (py "N3")
    [None; Some (py "wa"); Some []] = Raise (KeyError (py "JLPT")).
Proof.
  intros tokenize.
  assert (omap survives
            (document_tokens tokenize [None; Some (py "wa"); Some []]) = [])
    as Hnone by (vm_compute; reflexivity).
  split; [exact Hnone|].
  apply (empty_vocabulary_fails tokenize (λ w, [w]) ∅ ∅ ∅ (py "N3") _ Hnone).
Defined.

(** ** The order of the levels in the table *)

Lemma rank_str_order (x y : pystr) (a b : Z) :
  jlpt_rank !! x = Some a → jlpt_rank !! y = Some b → a > b →
  str_le y x = false.
Proof.
  rewrite !jlpt_rank_cases.
  repeat case_decide; subst; intros [= <-] [= <-] Hgt; try lia; reflexivity.
Qed.

(** X10: among the rows with one of the five levels, the table goes from
    the most advanced level to the least advanced one: a row of greater
    rank (N1 is the greatest) stands before every row of smaller rank. *)
Theorem advanced_levels_first (rows : list Row) :
  match ranker rows with
  | Ok out =>
      ∀ (i j : nat) ri rj a b,
        out !! i = Some ri → out !! j = Some rj →
        jlpt_rank !! JLPT ri = Some a → jlpt_rank !! JLPT rj = Some b →
        a > b → (i < j)%nat
  | Raise e => rows = []
  end.
Proof.
  rewrite ranker_cases. destruct rows as [|r rows]; [done|].
  intros i j ri rj a b Hi Hj Ha Hb Hgt.
  destruct (decide (i < j)%nat) as [|Hge]; [done|]. exfalso.
  destruct (decide (i = j)) as [->|Hne].
  { assert (ri = rj) as -> by congruence. rewrite Ha in Hb.
    injection Hb as ->. lia. }
  assert (rank_le rj ri) as [Hle _].
  { apply (StronglySorted_lookup_lt rank_le (lexsort (r :: rows)) j i);
      [apply lexsort_sorted|done|done|lia]. }
  unfold jlpt_asc in Hle. by rewrite (rank_str_order _ _ a b) in Hle.
Qed.

(** ** The lookup dicts *)

(** X11: in a dict made from two columns, a key that stands in several
    lines has the value of its last line, and a key that stands in no line
    is missing. *)
Theorem dict_zip_last_wins {V} (keys : list pystr) (values : list V)
    (k : pystr) :
  dict_zip keys values !! k =
  snd <$> last (filter (λ kv, kv.1 = k) (zip keys values)).
Proof.
  unfold dict_zip. generalize (zip keys values) as l.
  induction l as [|[k' v] l IH] using rev_ind; [done|].
  rewrite foldl_snoc, filter_app, filter_cons, filter_nil. simpl.
  rewrite lookup_insert. destruct (decide (k' = k)) as [->|Hne].
  - by rewrite last_snoc.
  - by rewrite app_nil_r.
Qed.

(** ** Ties and totals of a run *)

(** X12: the rows of the table that have the same level and the same
    frequency stand in the order in which their words were first met in the
    document. *)
Theorem ties_in_document_order (tokenize : pystr → list Token)
    (convert : pystr → list pystr) (jlpt_dict : gmap pystr pystr)
    (freq_dict : gmap pystr Z) (en_dict : gmap pystr pystr)
    (min_jlpt : pystr) (pages : list (option pystr)) (jlpt : pystr) (freq : Z) :
  min_jlpt ∈ LEVELS →
  match procesar tokenize convert jlpt_dict freq_dict en_dict min_jlpt pages with
  | Ok df =>
      (Front <$> filter (same_keys jlpt freq) (records df)) `sublist_of`
        (page_loop tokenize pages).*1
  | Raise e =>
      row_loop convert jlpt_dict freq_dict en_dict min_jlpt
        (page_loop tokenize pages) [] = Ok []
  end.
Proof.
  intros [m Hm]%jlpt_rank_known. unfold procesar.
  destruct (row_loop_known convert jlpt_dict freq_dict en_dict min_jlpt
              (page_loop tokenize pages) [] m Hm) as (rows & Hloop & Hall).
  simpl in Hloop. rewrite Hloop. cbn [mbind result_bind].
  destruct rows as [|r0 rows]; [done|]. rewrite sort_values_cons.
  cbn [records]. rewrite lexsort_stable.
  transitivity (Front <$> r0 :: rows).
  - apply fmap_sublist, sublist_filter.
  - rewrite (matches_fronts _ _ _ _ _ _ Hall).
    apply fmap_sublist, sublist_filter.
Qed.

Lemma ties_in_document_order_witness :
  let tokenize := λ clean : pystr,
    (λ c, {| part_of_speech := Ok [MEISHI]; dictionary_form := Ok [c] |})
      <$> clean in
  py "N3" ∈ LEVELS ∧
  ∃ df,
    procesar tokenize (λ w, [w]) ∅ ∅ ∅ (py "N3") [Some (py "cab")] = Ok df ∧
    Front <$> records df = [py "c"; py "a"; py "b"].
Proof.
  intros tokenize.
  assert (py "N3" ∈ LEVELS) as Hmin by (right; right; left).
  split; [exact Hmin|].
  pose proof (ties_in_document_order tokenize (λ w, [w]) ∅ ∅ ∅ (py "N3")
    [Some (py "cab")] [] 1 Hmin) as Hrun.
  destruct (procesar _ _ _ _ _ _ _) as [df|e] eqn:Hdf.
  - exists df. split; [reflexivity|].
    vm_compute in Hdf. injection Hdf as <-. vm_compute. reflexivity.
  - vm_compute in Hrun. discriminate Hrun.
Defined.

Lemma total_frequency_Permutation (rows rows' : list Row) :
  rows ≡ₚ rows' → total_frequency rows = total_frequency rows'.
Proof.
  unfold total_frequency.
  induction 1 as [|r l l' _ IH|r1 r2 l|l1 l2 l3 _ IH1 _ IH2]; simpl;
    [done|by rewrite IH|lia|congruence].
Qed.

Lemma total_frequency_matches convert jlpt_dict freq_dict en_dict
    (items : Vocab) (rows : list Row) :
  Forall2 (row_matches convert jlpt_dict freq_dict en_dict) items rows →
  total_frequency rows = total_count items.
Proof.
  unfold total_frequency, total_count.
  induction 1 as [|e r items rows Hm _ IH]; simpl; [done|].
  by rewrite IH, (matches_Frequency_PDF _ _ _ _ _ _ Hm).
Qed.

Lemma total_count_filter (P : pystr * Info → Prop) `{!∀ e, Decision (P e)}
    (vocab : Vocab) :
  Forall (λ e, 0 ≤ count e.2) vocab →
  total_count (filter P vocab) ≤ total_count vocab.
Proof.
  unfold total_count.
  induction 1 as [|e vocab He _ IH]; [done|].
  rewrite filter_cons. destruct (decide (P e)); simpl; lia.
Qed.

Lemma token_loop_counts_positive ts :
  Forall (λ e : pystr * Info, 0 ≤ count e.2) (token_loop ts []).
Proof.
  apply Forall_forall. intros [word info] Hin.
  assert (NoDup (token_loop ts []).*1) as Hnd
    by (apply token_loop_NoDup; constructor).
  pose proof (vocab_lookup_elem _ _ _ Hnd Hin) as Hlook.
  pose proof (token_loop_count ts [] word) as Hc.
  rewrite Hlook in Hc. simpl in Hc.
  destruct (occurrences word ts); [done|]. injection Hc as Hc. simpl. lia.
Qed.

Lemma too_advanced_top (jlpt_dict : gmap pystr pystr) (min_jlpt word : pystr) :
  jlpt_rank !! min_jlpt = Some 5 →
  too_advanced jlpt_dict min_jlpt word = false.
Proof.
  intros Hm. unfold too_advanced. rewrite Hm.
  destruct (jlpt_dict !! word) as [level|]; [|done].
  destruct (jlpt_rank !! level) as [r|] eqn:Hr; [|done].
  apply jlpt_rank_range in Hr. rewrite bool_decide_eq_false. lia.
Qed.

(** X13: the frequencies of the rows of the table add up to at most the
    number of surviving tokens of the document, and to exactly that number
    when the minimum level is N1: the level filter is the only place where
    tokens are lost, and no token is counted twice. *)
Theorem table_frequency_total (tokenize : pystr → list Token)
    (convert : pystr → list pystr) (jlpt_dict : gmap pystr pystr)
    (freq_dict : gmap pystr Z) (en_dict : gmap pystr pystr)
    (min_jlpt : pystr) (pages : list (option pystr)) :
  min_jlpt ∈ LEVELS →
  match procesar tokenize convert jlpt_dict freq_dict en_dict min_jlpt pages with
  | Ok df =>
      total_frequency (records df) ≤
        Z.of_nat (length (omap survives (document_tokens tokenize pages))) ∧
      (min_jlpt = py "N1" →
       total_frequency (records df) =
         Z.of_nat (length (omap survives (document_tokens tokenize pages))))
  | Raise e =>
      row_loop convert jlpt_dict freq_dict en_dict min_jlpt
        (page_loop tokenize pages) [] = Ok []
  end.
Proof.
  intros [m Hm]%jlpt_rank_known. unfold procesar.
  destruct (row_loop_known convert jlpt_dict freq_dict en_dict min_jlpt
              (page_loop tokenize pages) [] m Hm) as (rows & Hloop & Hall).
  simpl in Hloop. rewrite Hloop. cbn [mbind result_bind].
  destruct rows as [|r0 rows]; [done|]. rewrite sort_values_cons.
  cbn [records].
  rewrite (total_frequency_Permutation _ _ (lexsort_Permutation _)).
  rewrite (total_frequency_matches _ _ _ _ _ _ Hall).
  assert (total_count (page_loop tokenize pages) =
          Z.of_nat (length (omap survives (document_tokens tokenize pages))))
    as Htotal.
  { rewrite page_loop_tokens, token_loop_total. unfold total_count. simpl. lia. }
  rewrite <- Htotal. split.
  - apply total_count_filter. rewrite page_loop_tokens.
    apply token_loop_counts_positive.
  - intros ->. f_equal. apply filter_all. intros [word info].
    by apply too_advanced_top.
Qed.

Lemma table_frequency_total_witness :
  let tokenize := λ clean : pystr,
    (λ c, {| part_of_speech := Ok [MEISHI]; dictionary_form := Ok [c] |})
      <$> clean in
  py "N1" ∈ LEVELS ∧
  ∃ df,
    procesar tokenize (λ w, [w]) {[ py "a" := py "N1" ]} ∅ ∅ (py "N1")
      [Some (py "ab a")] = Ok df ∧
    total_frequency (records df) = 3.
Proof.
  intros tokenize.
  assert (py "N1" ∈ LEVELS) as Hmin by (do 4 right; left).
  split; [exact Hmin|].
  pose proof (table_frequency_total tokenize (λ w, [w])
    {[ py "a" := py "N1" ]} ∅ ∅ (py "N1") [Some (py "ab a")] Hmin) as Hrun.
  destruct (procesar _ _ _ _ _ _ _) as [df|e] eqn:Hdf.
  - exists df. split; [reflexivity|].
    destruct Hrun as [_ Heq]. rewrite (Heq eq_refl). vm_compute. reflexivity.
  - vm_compute in Hrun. discriminate Hrun.
Defined.
